(** * namedSQL: the named-placeholder compiler and the transaction orchestrator

    A shallow embedding of the function [named] and of the classes
    [Transaction] and [Database] of database.ts, with the properties stated
    about them.  The sources hold two copies of database.ts: the one that
    follows main.ts in src/src/main.ts, with which the tests agree and which
    is the one verified here, and an earlier one in src/src/database.ts,
    which differs in [named] only and is kept as [Legacy].

    JavaScript strings are sequences of UTF-16 code units; they are modelled
    as lists of code units ([list N]).  A number is a binary64 float.  An
    argument object is a plain object, given as the finite map of its own
    properties; property lookup goes on to the members that every plain
    object inherits from [Object.prototype]. *)

From Stdlib Require Import Floats.PrimFloat.
From stdpp Require Import gmap list strings.

#[local] Set Warnings "-clear-no-such-hyp".

Open Scope N_scope.

(** ** Strings *)

Module Js.

Abbreviation jsstring := (list N).

(** The code units of an ASCII literal. *)
Definition lit (s : string) : jsstring :=
  (λ a : Ascii.ascii, Ascii.N_of_ascii a) <$> String.list_ascii_of_string s.

(** [s] between double quotes. *)
Definition quoted (s : jsstring) : jsstring := 34 :: s ++ [34].

Definition dollar : N := 36.
Definition underscore : N := 95.

Definition is_upper (c : N) : bool := (65 <=? c) && (c <=? 90).
Definition is_lower (c : N) : bool := (97 <=? c) && (c <=? 122).
Definition is_digit (c : N) : bool := (48 <=? c) && (c <=? 57).

(** [[a-zA-Z_]] *)
Definition is_ident_start (c : N) : bool :=
  is_lower c || is_upper c || (c =? underscore).

(** [[a-zA-Z0-9_]], which is also [\w]; [\W] is its complement. *)
Definition is_word (c : N) : bool :=
  is_lower c || is_upper c || is_digit c || (c =? underscore).

(** WhiteSpace and LineTerminator of ECMAScript, the code units removed by
    [String.prototype.trim]. *)
Definition is_space (c : N) : bool :=
  (c =? 9) || (c =? 10) || (c =? 11) || (c =? 12) || (c =? 13) || (c =? 32)
  || (c =? 160) || (c =? 5760) || ((8192 <=? c) && (c <=? 8202))
  || (c =? 8232) || (c =? 8233) || (c =? 8239) || (c =? 8287)
  || (c =? 12288) || (c =? 65279).

Fixpoint take_while (p : N → bool) (s : jsstring) : jsstring :=
  match s with
  | c :: r => if p c then c :: take_while p r else []
  | [] => []
  end.

Fixpoint drop_while (p : N → bool) (s : jsstring) : jsstring :=
  match s with
  | c :: r => if p c then drop_while p r else s
  | [] => []
  end.

(** [s.trim()] *)
Definition trim (s : jsstring) : jsstring :=
  reverse (drop_while is_space (reverse (drop_while is_space s))).

(** [String(n)] for a positive integer index: its decimal digits. *)
Fixpoint digits (fuel : nat) (n : N) (acc : jsstring) : jsstring :=
  match fuel with
  | O => acc
  | S fuel' =>
      let acc' := (48 + n mod 10) :: acc in
      if n <? 10 then acc' else digits fuel' (n / 10) acc'
  end.

Definition decimal (n : nat) : jsstring := digits (S n) (N.of_nat n) [].

(** Does [s] start with [p]? *)
Fixpoint starts_with (p s : jsstring) : bool :=
  match p, s with
  | [], _ => true
  | a :: p', b :: s' => (a =? b) && starts_with p' s'
  | _ :: _, [] => false
  end.

End Js.

Import Js.

(** ** Values *)

(** What can be thrown: the error of the compiler, the errors of the
    driver, and the errors of the run time, such as the [RangeError] that
    [toISOString()] throws for an invalid date. *)
Inductive JsError : Type :=
  | MissingArgumentError (arg : jsstring)
  | DatabaseError (code : N)
  | Error (message : jsstring)
  | RangeError (message : jsstring).

(** The run-time values [named] can meet in an argument object, as far as
    the function observes them: [=== undefined], [=== null], [typeof],
    [instanceof Date] with what [toISOString()] does, [Array.isArray], and
    for everything else what [toString()] does.  A date with a time value
    is [JsDate], with the text [toISOString()] returns; a date without one
    is [JsInvalidDate], for which [toISOString()] throws.  A string gives
    itself as text, a boolean [true] or [false]; another object is
    [JsObject] with the text its [toString()] returns, or [JsThrowing] with
    the error its [toString()] throws. *)
#[warnings="-register-all"]
Inductive JsValue : Type :=
  | JsUndefined
  | JsNull
  | JsNumber (x : float)
  | JsString (s : jsstring)
  | JsBoolean (b : bool)
  | JsDate (iso : jsstring)
  | JsArray (elems : list JsValue)
  | JsObject (str : jsstring)
  | JsInvalidDate
  | JsThrowing (e : JsError).

(** [NamedArgs]: a plain object used as a map from names to values, given
    by its own properties. *)
Abbreviation NamedArgs := (gmap jsstring JsValue).

(** A built-in function, with the text its [toString()] returns in
    Node.js. *)
Definition native_function (name : jsstring) : JsValue :=
  JsObject (lit "function " ++ name ++ lit "() { [native code] }").

(** The members a plain object inherits from [Object.prototype]: eleven
    functions and, under [__proto__], the prototype itself. *)
Definition Object_prototype : gmap jsstring JsValue :=
  list_to_map
    [(lit "constructor", native_function (lit "Object"));
     (lit "__defineGetter__", native_function (lit "__defineGetter__"));
     (lit "__defineSetter__", native_function (lit "__defineSetter__"));
     (lit "hasOwnProperty", native_function (lit "hasOwnProperty"));
     (lit "__lookupGetter__", native_function (lit "__lookupGetter__"));
     (lit "__lookupSetter__", native_function (lit "__lookupSetter__"));
     (lit "isPrototypeOf", native_function (lit "isPrototypeOf"));
     (lit "propertyIsEnumerable",
      native_function (lit "propertyIsEnumerable"));
     (lit "toString", native_function (lit "toString"));
     (lit "valueOf", native_function (lit "valueOf"));
     (lit "toLocaleString", native_function (lit "toLocaleString"));
     (lit "__proto__", JsObject (lit "[object Object]"))].

(** [args[param]]: the value of the object's own property if it has one,
    else that of the inherited member if there is one, else [undefined]. *)
Definition get (args : NamedArgs) (param : jsstring) : JsValue :=
  match args !! param with
  | Some v => v
  | None => default JsUndefined (Object_prototype !! param)
  end.

(** [type ParamType = number | number[] | string | string[] | null], read as
    a predicate on run-time values. *)
Definition is_number (v : JsValue) : bool :=
  match v with JsNumber _ => true | _ => false end.

Definition is_string (v : JsValue) : bool :=
  match v with JsString _ => true | _ => false end.

Definition is_ParamType (v : JsValue) : bool :=
  match v with
  | JsNull | JsNumber _ | JsString _ => true
  | JsArray elems => forallb is_number elems || forallb is_string elems
  | _ => false
  end.

Record NamedQueryResult : Type := {
  preparedQuery : jsstring;
  params : list JsValue;
}.

(** The outcome of running a piece of code: it completes with a value or it
    throws. *)
Inductive Completion (A : Type) : Type :=
  | Normal (a : A)
  | Throw (e : JsError).
Arguments Normal {A} a.
Arguments Throw {A} e.

(** ** The placeholder compiler *)

Module Compiler.

Definition head_is (p : N → bool) (s : jsstring) : bool :=
  match s with
  | c :: _ => p c
  | [] => false
  end.

(** The names found by [query.matchAll] with the global pattern "[$]
    followed by an identifier" (a letter or underscore, then any number of
    letters, digits and underscores), each match with its first code unit
    sliced off.  Every [$] followed by an identifier start begins a match,
    which runs over the longest sequence of word code units.  A match holds
    no second [$], so matches never overlap and the scan may go on right
    after the [$]. *)
Fixpoint matchAll (query : jsstring) : list jsstring :=
  match query with
  | [] => []
  | c :: rest =>
      if (c =? dollar) && head_is is_ident_start rest
      then take_while is_word rest :: matchAll rest
      else matchAll rest
  end.

(** A JavaScript [Set] keeps its elements in insertion order. *)
Definition Set_add (s : list jsstring) (x : jsstring) : list jsstring :=
  if decide (x ∈ s) then s else s ++ [x].

Definition new_Set (l : list jsstring) : list jsstring :=
  foldl Set_add [] l.

(** The replace pattern of [param], tried just after a [$]: the text goes
    on with [param], and then the lookahead finds a non-word code unit or
    the end of the input. *)
Definition lookahead (s : jsstring) : bool :=
  match s with
  | [] => true
  | c :: _ => negb (is_word c)
  end.

Definition matches_at (param rest : jsstring) : bool :=
  starts_with param rest && lookahead (drop (length param) rest).

(** [query.replaceAll(replacePattern, repl)], replacing every match of the
    pattern of [param].  [skip] counts the code units of the last match
    still to be passed over.  The pattern has no capture group, so the
    [$<digits>] of the replacement text stands for itself. *)
Fixpoint replaceAll (param repl : jsstring) (skip : nat) (query : jsstring)
  : jsstring :=
  match query with
  | [] => []
  | c :: rest =>
      match skip with
      | S k => replaceAll param repl k rest
      | O =>
          if (c =? dollar) && matches_at param rest
          then repl ++ replaceAll param repl (length param) rest
          else c :: replaceAll param repl 0 rest
      end
  end.

(** The replacement text: [$] and the decimal digits of [idx]. *)
Definition marker (idx : nat) : jsstring := dollar :: decimal idx.

(** The value pushed on [paramArray] for an argument, or the error thrown
    on the way: [toISOString()] throws for an invalid date, and
    [toString()] throws what the object makes it throw.  [null] is pushed
    as it is; [undefined] does not come here. *)
Definition convert (paramValue : JsValue) : Completion JsValue :=
  match paramValue with
  | JsNumber _ => Normal paramValue               (* typeof is number *)
  | JsDate iso => Normal (JsString iso)           (* toISOString() *)
  | JsInvalidDate => Throw (RangeError (lit "Invalid time value"))
  | JsArray _ => Normal paramValue                (* Array.isArray *)
  | JsString s => Normal (JsString s)             (* toString() *)
  | JsBoolean b => Normal (JsString (lit (if b then "true" else "false")))
  | JsObject str => Normal (JsString str)
  | JsThrowing e => Throw e
  | JsNull | JsUndefined => Normal paramValue
  end.

Definition push (paramArray : list JsValue) (paramValue : JsValue)
  : Completion (list JsValue) :=
  let paramArray :=
    match paramValue with
    | JsNull => paramArray ++ [JsNull]
    | _ => paramArray
    end in
  match paramValue with
  | JsNull | JsUndefined => Normal paramArray     (* paramValue != null fails *)
  | _ =>
      match convert paramValue with
      | Normal param => Normal (paramArray ++ [param])
      | Throw e => Throw e
      end
  end.

Record LoopState : Type := {
  query : jsstring;
  paramArray : list JsValue;
  idx : nat;
}.

(** One round of [for (const param of paramsSet)]. *)
Definition loop_body (args : NamedArgs) (st : LoopState) (param : jsstring)
  : Completion LoopState :=
  let paramValue := get args param in
  match paramValue with
  | JsUndefined => Throw (MissingArgumentError param)
  | _ =>
      match push (paramArray st) paramValue with
      | Normal paramArray =>
          Normal {| query := replaceAll param (marker (idx st)) 0 (query st);
                    paramArray := paramArray;
                    idx := S (idx st) |}
      | Throw e => Throw e
      end
  end.

Fixpoint for_of {S A : Type} (body : S → A → Completion S) (l : list A)
  (st : S) : Completion S :=
  match l with
  | [] => Normal st
  | x :: l' =>
      match body st x with
      | Normal st' => for_of body l' st'
      | Throw e => Throw e
      end
  end.

Definition named (query : jsstring) (args : NamedArgs)
  : Completion NamedQueryResult :=
  let params := matchAll query in
  let paramsSet := new_Set params in
  match for_of (loop_body args) paramsSet
          {| query := query; paramArray := []; idx := 1 |} with
  | Normal st =>
      Normal {| preparedQuery := trim (Compiler.query st);
                params := paramArray st |}
  | Throw e => Throw e
  end.

End Compiler.

Import Compiler.

(** ** The compiler as the specification words it *)

Module Spec.

(** An identifier: a letter or underscore, then letters, digits and
    underscores. *)
Definition is_identifier (s : jsstring) : bool :=
  head_is is_ident_start s && forallb is_word s.

(** A text at which an identifier ends: the end of the template, or a code
    unit that cannot go on an identifier. *)
Definition at_boundary (s : jsstring) : bool :=
  match s with
  | [] => true
  | c :: _ => negb (is_word c)
  end.

(** A placeholder of a template: a [$], an identifier, and then a
    boundary.  [occurs_in q name] says that the template [q] has a
    placeholder of this name. *)
Definition occurs_in (q name : jsstring) : Prop :=
  ∃ pre post,
    q = pre ++ dollar :: name ++ post
    ∧ is_identifier name = true ∧ at_boundary post = true.

(** Sequential positional indices, from [i] on, in the order of [names]. *)
Fixpoint index_from (names : list jsstring) (i : nat) (name : jsstring)
  : option nat :=
  match names with
  | [] => None
  | n :: names' =>
      if decide (n = name) then Some i else index_from names' (S i) name
  end.

(** Substitution as a single-pass rewrite keyed by name: going through the
    template once, a [$] followed by an identifier is a placeholder token,
    made of the [$] and the whole identifier; a token whose name has an
    index is replaced by [$<index>], and everything else is copied. *)
Fixpoint rewrite (index : jsstring → option nat) (skip : nat) (s : jsstring)
  : jsstring :=
  match s with
  | [] => []
  | c :: rest =>
      match skip with
      | S k => rewrite index k rest
      | O =>
          if (c =? dollar) && head_is is_ident_start rest
          then
            match index (take_while is_word rest) with
            | Some i =>
                marker i
                  ++ rewrite index (length (take_while is_word rest)) rest
            | None => c :: rewrite index 0 rest
            end
          else c :: rewrite index 0 rest
      end
  end.

End Spec.

Import Spec.

(** ** The earlier copy of the compiler *)

(** [named] as src/src/database.ts has it: the replacement goes by the
    plain text [$<param>], with no lookahead, and a number has no branch
    of its own, so that it is converted by [toString()]. *)
Module Legacy.

(** [query.replaceAll(pattern, repl)] for a string pattern: every
    occurrence of [pattern], from the left, without overlap. *)
Fixpoint replaceAll (pattern repl : jsstring) (skip : nat) (query : jsstring)
  : jsstring :=
  match query with
  | [] => []
  | c :: rest =>
      match skip with
      | S k => replaceAll pattern repl k rest
      | O =>
          if starts_with pattern (c :: rest)
          then repl ++ replaceAll pattern repl (pred (length pattern)) rest
          else c :: replaceAll pattern repl 0 rest
      end
  end.

Section Runtime.

(** [Number.prototype.toString], a built-in taken as given. *)
Context (Number_toString : float → jsstring).

Definition convert (paramValue : JsValue) : Completion JsValue :=
  match paramValue with
  | JsDate iso => Normal (JsString iso)
  | JsInvalidDate => Throw (RangeError (lit "Invalid time value"))
  | JsArray _ => Normal paramValue
  | JsNumber x => Normal (JsString (Number_toString x))
  | JsString s => Normal (JsString s)
  | JsBoolean b => Normal (JsString (lit (if b then "true" else "false")))
  | JsObject str => Normal (JsString str)
  | JsThrowing e => Throw e
  | JsNull | JsUndefined => Normal paramValue
  end.

Definition push (paramArray : list JsValue) (paramValue : JsValue)
  : Completion (list JsValue) :=
  let paramArray :=
    match paramValue with
    | JsNull => paramArray ++ [JsNull]
    | _ => paramArray
    end in
  match paramValue with
  | JsNull | JsUndefined => Normal paramArray
  | _ =>
      match convert paramValue with
      | Normal param => Normal (paramArray ++ [param])
      | Throw e => Throw e
      end
  end.

Definition loop_body (args : NamedArgs) (st : LoopState) (param : jsstring)
  : Completion LoopState :=
  let paramValue := get args param in
  match paramValue with
  | JsUndefined => Throw (MissingArgumentError param)
  | _ =>
      match push (paramArray st) paramValue with
      | Normal paramArray =>
          Normal {| query :=
                      replaceAll (dollar :: param) (marker (idx st)) 0
                        (query st);
                    paramArray := paramArray;
                    idx := S (idx st) |}
      | Throw e => Throw e
      end
  end.

Definition named (query : jsstring) (args : NamedArgs)
  : Completion NamedQueryResult :=
  let params := matchAll query in
  let paramsSet := new_Set params in
  match for_of (loop_body args) paramsSet
          {| query := query; paramArray := []; idx := 1 |} with
  | Normal st =>
      Normal {| preparedQuery := trim (Compiler.query st);
                params := paramArray st |}
  | Throw e => Throw e
  end.

End Runtime.

End Legacy.

(** The digits of [decimal n] read back as [n]. *)
Definition read_decimal (ds : jsstring) : N :=
  foldl (λ acc d, 10 * acc + (d - 48)) 0 ds.

(** A name is supplied when looking it up gives a value other than
    [undefined]. *)
Definition supplied (args : NamedArgs) (name : jsstring) : Prop :=
  get args name ≠ JsUndefined.

(** The value of a name can be converted: neither [toISOString()] nor
    [toString()] throws on it. *)
Definition converts (args : NamedArgs) (name : jsstring) : Prop :=
  ∃ param, convert (get args name) = Normal param.

(** A name is inherited when every plain object has it from
    [Object.prototype]. *)
Definition inherited (name : jsstring) : Prop :=
  is_Some (Object_prototype !! name).

(** A name is missing when the object has no such key, or has it bound to
    [undefined]. *)
Definition missing (args : NamedArgs) (name : jsstring) : Prop :=
  args !! name = None ∨ args !! name = Some JsUndefined.

(** ** The transaction orchestrator *)

(** The driver, as far as [Transaction] and [Database.transaction] use it.
    A call of [client.query] sends a statement on the connection and
    returns a promise, which the server settles: it is fulfilled with a
    result or rejected with an error.  [await] gives the result of a
    fulfilled promise and throws the error of a rejected one; the rejection
    of a promise that nothing awaits reaches no caller and is recorded as
    unhandled. *)
Module Pg.

Record Statement : Type := {
  text : jsstring;
  values : list JsValue;
}.

Record QueryResult : Type := {
  rowCount : nat;
  rows : list (list JsValue);
}.

Inductive Settled : Type :=
  | Fulfilled (result : QueryResult)
  | Rejected (e : JsError).

(** How the pool and the server behave: whether [pool.connect()] is
    rejected, and how a statement is settled after the statements sent
    before it on the connection. *)
Record Driver : Type := {
  connect_error : option JsError;
  server : list Statement → Statement → Settled;
}.

(** The connection of one transaction: how often it was checked out of the
    pool, the statements sent on it, oldest first, how often it was
    released, and the rejections nothing awaited. *)
Record World : Type := {
  checked_out : nat;
  sent : list Statement;
  released : nat;
  unhandled : list JsError;
}.

Definition start : World :=
  {| checked_out := 0; sent := []; released := 0; unhandled := [] |}.

(** Asynchronous code, run to completion: it changes the world and
    completes normally or throws. *)
Definition Async (A : Type) : Type := World → World * Completion A.

Definition ret {A} (a : A) : Async A := λ w, (w, Normal a).

Definition throw {A} (e : JsError) : Async A := λ w, (w, Throw e).

Definition bind {A B} (m : Async A) (f : A → Async B) : Async B :=
  λ w, match m w with
       | (w', Normal a) => f a w'
       | (w', Throw e) => (w', Throw e)
       end.

#[global] Instance Async_ret : MRet Async := @ret.
#[global] Instance Async_bind : MBind Async := λ A B f m, bind m f.

(** [try { body } catch (err) { handler } finally { finalizer }] *)
Definition try_catch_finally {A} (body : Async A)
    (handler : JsError → Async A) (finalizer : Async unit) : Async A :=
  λ w,
    let '(w1, c1) :=
      match body w with
      | (w', Normal a) => (w', Normal a)
      | (w', Throw err) => handler err w'
      end in
    match finalizer w1 with
    | (w2, Normal _) => (w2, c1)
    | (w2, Throw e) => (w2, Throw e)
    end.

(** A call whose promise is dropped: the statement is sent, the caller goes
    on, and a rejection is left unhandled. *)
Definition not_awaited {A} (m : Async A) : Async unit :=
  λ w,
    match m w with
    | (w', Normal _) => (w', Normal tt)
    | (w', Throw e) =>
        ({| checked_out := checked_out w'; sent := sent w';
            released := released w'; unhandled := unhandled w' ++ [e] |},
         Normal tt)
    end.

Section Driver.

Context (driver : Driver).

(** [await pool.connect()] *)
Definition pool_connect : Async unit :=
  λ w,
    match connect_error driver with
    | Some e => (w, Throw e)
    | None =>
        ({| checked_out := S (checked_out w); sent := sent w;
            released := released w; unhandled := unhandled w |}, Normal tt)
    end.

(** [await client.query(text, values)] *)
Definition client_query (text : jsstring) (values : list JsValue)
  : Async QueryResult :=
  λ w,
    let stmt := {| text := text; values := values |} in
    let w' := {| checked_out := checked_out w; sent := sent w ++ [stmt];
                 released := released w; unhandled := unhandled w |} in
    match server driver (sent w) stmt with
    | Fulfilled result => (w', Normal result)
    | Rejected e => (w', Throw e)
    end.

(** [client.release()] *)
Definition client_release : Async unit :=
  λ w,
    ({| checked_out := checked_out w; sent := sent w;
        released := S (released w); unhandled := unhandled w |}, Normal tt).

End Driver.

End Pg.

Import Pg.

(** *** class Transaction *)

Module Transaction.

Section Client.

Context (driver : Driver).

(** [async commit() { this.#client.query("commit") }] *)
Definition commit : Async unit :=
  not_awaited (client_query driver (lit "commit") []).

(** [async rollback() { this.#client.query("rollback") }] *)
Definition rollback : Async unit :=
  not_awaited (client_query driver (lit "rollback") []).

Definition release : Async unit := client_release.

Definition query (text : jsstring) (values : list JsValue)
  : Async QueryResult :=
  client_query driver text values.

Definition namedQuery (query : jsstring) (args : NamedArgs)
  : Async QueryResult :=
  match named query args with
  | Normal q => client_query driver (preparedQuery q) (params q)
  | Throw e => throw e
  end.

End Client.

End Transaction.

(** *** class Database *)

Module Database.

(** The callback given to [transaction], as the statements it awaits on
    the handle through [query] and [namedQuery]: each step goes on with the
    outcome of the statement, which it may catch; at the end its promise is
    fulfilled or rejected. *)
Inductive Work : Type :=
  | Return
  | Raise (e : JsError)
  | Query (text : jsstring) (values : list JsValue)
      (k : Completion QueryResult → Work)
  | NamedQuery (query : jsstring) (args : NamedArgs)
      (k : Completion QueryResult → Work).

Section Pool.

Context (driver : Driver).

(** [await callback(tx)] *)
Fixpoint run (callback : Work) (w : World) : World * Completion unit :=
  match callback with
  | Return => (w, Normal tt)
  | Raise e => (w, Throw e)
  | Query text values k =>
      let '(w', c) := Transaction.query driver text values w in run (k c) w'
  | NamedQuery query args k =>
      let '(w', c) := Transaction.namedQuery driver query args w in
      run (k c) w'
  end.

Definition transaction (callback : Work) : Async unit :=
  pool_connect driver;;
  client_query driver (lit "begin") [];;
  try_catch_finally
    ((run callback : Async unit);; Transaction.commit driver)
    (λ err, Transaction.rollback driver;; throw err)
    Transaction.release.

End Pool.

End Database.

Import Database.

(** Statements and servers used below. *)

Definition begin_stmt : Statement := {| text := lit "begin"; values := [] |}.
Definition commit_stmt : Statement := {| text := lit "commit"; values := [] |}.
Definition rollback_stmt : Statement :=
  {| text := lit "rollback"; values := [] |}.

(** A server on which the statement [failing] is rejected with a database
    error and every other statement succeeds. *)
Definition rejecting (failing : jsstring) (code : N) : Driver :=
  {| connect_error := None;
     server := λ _ stmt,
       if decide (text stmt = failing) then Rejected (DatabaseError code)
       else Fulfilled {| rowCount := 0; rows := [] |} |}.

(** A callback that inserts two rows and then fails. *)
Definition two_inserts_then_fail : Work :=
  Query (lit "insert into t values (1)") [] (λ _,
  Query (lit "insert into t values (2)") [] (λ _,
  Raise (Error (lit "boom")))).

(** The world once a connection is checked out and [begin] is sent. *)
Definition begun (w : World) : World :=
  {| checked_out := S (checked_out w); sent := sent w ++ [begin_stmt];
     released := released w; unhandled := unhandled w |}.

(** A server on which every statement succeeds. *)
Definition accepting : Driver :=
  {| connect_error := None;
     server := λ _ _, Fulfilled {| rowCount := 0; rows := [] |} |}.

(** ** The handle interface and the pool *)

(** [interface DbHandle] (named [IDatabase] in the earlier copy): what a
    repository may call on a database or on a transaction. *)
Module Handle.

Record DbHandle : Type := {
  query : jsstring → list JsValue → Async QueryResult;
  namedQuery : jsstring → NamedArgs → Async QueryResult;
}.

End Handle.

Abbreviation DbHandle := Handle.DbHandle.

(** [try { body } catch (err) { handler }] *)
Definition try_catch {A} (body : Async A) (handler : JsError → Async A)
  : Async A :=
  λ w,
    match body w with
    | (w', Normal a) => (w', Normal a)
    | (w', Throw err) => handler err w'
    end.

(** [await pool.query(text, values)]: the pool checks out a connection,
    sends the statement on it and releases it, whether the statement
    succeeds or fails. *)
Definition pool_query (driver : Driver) (text : jsstring)
    (values : list JsValue) : Async QueryResult :=
  pool_connect driver;;
  try_catch_finally (client_query driver text values) throw client_release.

(** The methods of [class Database] that go through the pool. *)
Module DatabaseHandle.

Section Pool.

Context (driver : Driver).

Definition ping : Async bool :=
  result ← pool_query driver (lit "select 1") [];
  mret (bool_decide (rowCount result = 1%nat)).

Definition query (text : jsstring) (args : list JsValue)
  : Async QueryResult :=
  pool_query driver text args.

Definition namedQuery (query : jsstring) (args : NamedArgs)
  : Async QueryResult :=
  match named query args with
  | Normal q => pool_query driver (preparedQuery q) (params q)
  | Throw e => throw e
  end.

Definition handle : DbHandle :=
  {| Handle.query := query; Handle.namedQuery := namedQuery |}.

End Pool.

End DatabaseHandle.

(** A transaction as a handle. *)
Definition tx_handle (driver : Driver) : DbHandle :=
  {| Handle.query := Transaction.query driver;
     Handle.namedQuery := Transaction.namedQuery driver |}.

(** The classes of the earlier copy: they are those above, with the
    earlier [named].  The callback of [transaction] is given the
    transaction as a handle. *)
Module LegacyDb.

Section Runtime.

Context (Number_toString : float → jsstring) (driver : Driver).

Definition Transaction_namedQuery (query : jsstring) (args : NamedArgs)
  : Async QueryResult :=
  match Legacy.named Number_toString query args with
  | Normal q => client_query driver (preparedQuery q) (params q)
  | Throw e => throw e
  end.

Definition tx_handle : DbHandle :=
  {| Handle.query := Transaction.query driver;
     Handle.namedQuery := Transaction_namedQuery |}.

Definition Database_namedQuery (query : jsstring) (args : NamedArgs)
  : Async QueryResult :=
  match Legacy.named Number_toString query args with
  | Normal q => pool_query driver (preparedQuery q) (params q)
  | Throw e => throw e
  end.

Definition handle : DbHandle :=
  {| Handle.query := pool_query driver;
     Handle.namedQuery := Database_namedQuery |}.

Definition transaction (callback : DbHandle → Async unit) : Async unit :=
  pool_connect driver;;
  client_query driver (lit "begin") [];;
  try_catch_finally
    (callback tx_handle;; Transaction.commit driver)
    (λ err, Transaction.rollback driver;; throw err)
    Transaction.release.

End Runtime.

End LegacyDb.

(** A handle compiles first: when [compile] throws, its [namedQuery]
    throws the same error and does nothing else. *)
Definition compiles_first
    (compile : jsstring → NamedArgs → Completion NamedQueryResult)
    (db : DbHandle) : Prop :=
  ∀ q args e w,
    compile q args = Throw e → Handle.namedQuery db q args w = (w, Throw e).

(** ** The repositories *)

Definition newline : jsstring := [10].

(** [class UserRepo] of the earlier main.ts (src/unnamed/part_000). *)
Module UserRepo.

Inductive Role : Type := ADMIN | CUSTOMER.

(** [z.infer<typeof UserEntitySchema>] *)
Record UserEntity : Type := {
  user_id : jsstring;
  email : jsstring;
  password : jsstring;
  role : Role;
  isActive : bool;
  created_at : jsstring;
  deleted_at : option jsstring;
}.

(** A user as the object given to [namedQuery]; the dates are [Date]s,
    here with their ISO-8601 text. *)
Definition to_object (user : UserEntity) : NamedArgs :=
  <[lit "user_id" := JsString (user_id user)]>
    (<[lit "email" := JsString (email user)]>
       (<[lit "password" := JsString (password user)]>
          (<[lit "role" := JsString (lit match role user with
                                         | ADMIN => "ADMIN"
                                         | CUSTOMER => "CUSTOMER"
                                         end)]>
             (<[lit "isActive" := JsBoolean (isActive user)]>
                (<[lit "created_at" := JsDate (created_at user)]>
                   {[lit "deleted_at" :=
                       match deleted_at user with
                       | Some iso => JsDate iso
                       | None => JsNull
                       end]}))))).

Definition createUserQuery : jsstring :=
  newline
    ++ lit "        insert into users (user_id, email, password, role, is_active, created_at)"
    ++ newline
    ++ lit "        values ($user_id, $email, $password, $role, $is_active, $created_at)"
    ++ newline ++ lit "    ".

Definition findByIdQuery : jsstring :=
  newline ++ lit "        select * from users"
    ++ newline ++ lit "        where user_id = $user_id"
    ++ newline ++ lit "        limit 1"
    ++ newline ++ lit "    ".

Definition updateUserQuery : jsstring :=
  newline ++ lit "        update users"
    ++ newline ++ lit "        set email = $email,"
    ++ newline ++ lit "            password = $password,"
    ++ newline ++ lit "            role = $role,"
    ++ newline ++ lit "            is_active = $is_active,"
    ++ newline ++ lit "            created_at = $created_at,"
    ++ newline ++ lit "            deleted_at = $deleted_at"
    ++ newline ++ lit "        where id = $user_id"
    ++ newline ++ lit "    ".

Definition deleteUserQuery : jsstring :=
  newline ++ lit "        delete from users"
    ++ newline ++ lit "        where user_id = $user_id"
    ++ newline ++ lit "    ".

Section Libraries.

(** Taken as given: [err.constraint] of the driver's [DatabaseError] with
    a given code, and [UserEntitySchema.parse] on the first row, if any. *)
Context (constraint : N → option jsstring)
        (UserEntitySchema_parse : option (list JsValue) → Completion UserEntity).

Definition handleConstraintViolations (err : JsError) : Async unit :=
  match err with
  | DatabaseError code =>
      if decide (constraint code = Some (lit "email_unique"))
      then throw (Error (lit "email address already in use"))
      else throw err
  | _ => throw err
  end.

Definition createUser (db : DbHandle) (user : UserEntity) : Async unit :=
  try_catch
    (Handle.namedQuery db createUserQuery (to_object user);; mret tt)
    handleConstraintViolations.

Definition findById (db : DbHandle) (id : jsstring)
  : Async (option UserEntity) :=
  result ← Handle.namedQuery db findByIdQuery {[lit "id" := JsString id]};
  if decide (rowCount result = 0%nat) then mret None
  else
    match UserEntitySchema_parse (rows result !! 0%nat) with
    | Normal user => mret (Some user)
    | Throw e => throw e
    end.

Definition updateUser (db : DbHandle) (user : UserEntity) : Async unit :=
  try_catch
    (Handle.namedQuery db updateUserQuery (to_object user);; mret tt)
    handleConstraintViolations.

Definition deleteUser (db : DbHandle) (id : jsstring) : Async unit :=
  Handle.namedQuery db deleteUserQuery {[lit "id" := JsString id]};; mret tt.

(** [for (const u of users) { await userRepo.createUser(tx, u) }], the
    callback of the transaction in [main]. *)
Fixpoint create_all (db : DbHandle) (users : list UserEntity) : Async unit :=
  match users with
  | [] => mret tt
  | u :: users' => createUser db u;; create_all db users'
  end.

End Libraries.

End UserRepo.

(** [class PlayerRepo] of main.ts (src/src/main.ts). *)
Module PlayerRepo.

Record Player : Type := {
  player_id : float;
  name : jsstring;
  score : float;
}.

Definition findPlayersQuery : jsstring :=
  newline ++ lit "        select p.* from players p"
    ++ newline ++ lit "        where p.player_id = any($ids)"
    ++ newline ++ lit "    ".

Section Libraries.

(** Taken as given: [PlayerSchema.parseAsync] over all rows. *)
Context (PlayerSchema_parseAll :
           list (list JsValue) → Completion (list Player)).

Definition findPlayers (db : DbHandle) (ids : list float)
  : Async (list Player) :=
  result ← Handle.namedQuery db findPlayersQuery
             {[lit "ids" := JsArray (JsNumber <$> ids)]};
  match PlayerSchema_parseAll (rows result) with
  | Normal players => mret players
  | Throw e => throw e
  end.

End Libraries.

End PlayerRepo.

(** * Proofs *)

(** ** Code units and scanning *)

Section Scanning.

Implicit Types (c : N) (s w p : jsstring).

Lemma is_ident_start_word c : is_ident_start c = true → is_word c = true.
Proof.
  unfold is_ident_start, is_word.
  destruct (is_lower c), (is_upper c), (c =? underscore), (is_digit c);
    simpl; congruence.
Qed.

Lemma is_word_not_dollar c : is_word c = true → (c =? dollar) = false.
Proof.
  unfold is_word, is_lower, is_upper, is_digit, underscore, dollar.
  intros H. apply N.eqb_neq. intros ->. vm_compute in H. discriminate.
Qed.

Lemma is_digit_word c : is_digit c = true → is_word c = true.
Proof.
  unfold is_word. intros ->.
  destruct (is_lower c), (is_upper c); reflexivity.
Qed.

Lemma is_digit_not_ident_start c :
  is_digit c = true → is_ident_start c = false.
Proof.
  unfold is_digit, is_ident_start, is_lower, is_upper, underscore.
  intros H. apply andb_true_iff in H as [H1 H2].
  apply N.leb_le in H1, H2.
  repeat (apply orb_false_iff; split);
    try (apply andb_false_iff; first [left; apply N.leb_gt; lia
                                     | right; apply N.leb_gt; lia]).
  apply N.eqb_neq. lia.
Qed.

Lemma take_drop_while (f : N → bool) s :
  take_while f s ++ drop_while f s = s.
Proof.
  induction s as [|c s IH]; simpl; [done|].
  destruct (f c); simpl; [by rewrite IH | done].
Qed.

Lemma take_while_all (f : N → bool) s : forallb f (take_while f s) = true.
Proof.
  induction s as [|c s IH]; simpl; [done|].
  destruct (f c) eqn:E; simpl; [by rewrite E | done].
Qed.

Lemma drop_while_head (f : N → bool) s :
  head_is f (drop_while f s) = false.
Proof.
  induction s as [|c s IH]; simpl; [done|].
  destruct (f c) eqn:E; simpl; [done | by rewrite E].
Qed.

Lemma drop_while_length (f : N → bool) s :
  (length (drop_while f s) ≤ length s)%nat.
Proof.
  induction s as [|c s IH]; simpl; [lia|].
  destruct (f c); simpl; lia.
Qed.

Lemma lookahead_drop_while s : lookahead (drop_while is_word s) = true.
Proof.
  pose proof (drop_while_head is_word s) as H.
  destruct (drop_while is_word s); simpl in *; [done | by rewrite H].
Qed.

Lemma take_while_app_all (f : N → bool) w s :
  forallb f w = true → head_is f s = false →
  take_while f (w ++ s) = w.
Proof.
  induction w as [|c w IH]; simpl; intros Hw Hs.
  - destruct s as [|d s]; simpl in *; [done | by rewrite Hs].
  - apply andb_true_iff in Hw as [-> Hw]. by rewrite IH.
Qed.

Lemma starts_with_app p s : starts_with p (p ++ s) = true.
Proof.
  induction p as [|a p IH]; simpl; [done|]. by rewrite N.eqb_refl.
Qed.

Lemma is_identifier_inv p :
  is_identifier p = true →
  ∃ a p', p = a :: p' ∧ is_ident_start a = true ∧ forallb is_word p = true.
Proof.
  unfold is_identifier. intros H. apply andb_true_iff in H as [H1 H2].
  destruct p as [|a p']; simpl in H1; [done|]. eauto.
Qed.

Lemma take_while_identifier s :
  head_is is_ident_start s = true →
  is_identifier (take_while is_word s) = true.
Proof.
  intros H. unfold is_identifier. rewrite take_while_all, andb_true_r.
  destruct s as [|c s]; simpl in *; [done|].
  by rewrite (is_ident_start_word c H).
Qed.

(** Where the pattern of a name matches: after [w], a sequence of word
    code units that ends at a boundary, exactly when [w] is the name. *)
Lemma matches_at_word p w s :
  forallb is_word p = true → forallb is_word w = true →
  lookahead s = true →
  matches_at p (w ++ s) = true ↔ p = w.
Proof.
  intros Hp Hw Hs. split.
  - unfold matches_at. revert w Hw.
    induction p as [|a p IH]; intros w Hw H; simpl in *.
    + destruct w as [|c w]; [done|]. simpl in *.
      apply andb_true_iff in Hw as [Hc _]. by rewrite Hc in H.
    + apply andb_true_iff in Hp as [Ha Hp].
      destruct w as [|c w]; simpl in *.
      * destruct s as [|d s]; simpl in *; [done|].
        destruct (N.eqb_spec a d) as [->|]; simpl in H; [|done].
        by rewrite Ha in Hs.
      * apply andb_true_iff in Hw as [Hc Hw].
        destruct (N.eqb_spec a c) as [->|]; simpl in H; [|done].
        f_equal. by apply IH.
  - intros ->. unfold matches_at.
    by rewrite starts_with_app, drop_app_length, Hs.
Qed.

(** The pattern of an identifier does not match where the text does not go
    on with its first code unit. *)
Lemma matches_at_head p s :
  is_identifier p = true → head_is is_ident_start s = false →
  matches_at p s = false.
Proof.
  intros (a & p' & -> & Ha & _)%is_identifier_inv Hs.
  unfold matches_at. destruct s as [|d s]; simpl in *; [done|].
  destruct (N.eqb_spec a d) as [->|]; [congruence | done].
Qed.

End Scanning.

(** ** The replacement text *)

Section Markers.

Lemma mod_10_digit n : is_digit (48 + n mod 10) = true.
Proof.
  unfold is_digit. assert (n mod 10 < 10) as H by by apply N.mod_lt.
  revert H. generalize (n mod 10). intros m H.
  apply andb_true_iff. split; apply N.leb_le; lia.
Qed.

Lemma digits_spec fuel n acc :
  ∃ ds, digits (S fuel) n acc = ds ++ acc ∧ ds ≠ []
        ∧ forallb is_digit ds = true.
Proof.
  revert n acc. induction fuel as [|fuel IH]; intros n acc.
  - exists [48 + n mod 10]. cbn [digits forallb].
    rewrite mod_10_digit. by destruct (n <? 10).
  - change (digits (S (S fuel)) n acc)
      with (if n <? 10 then (48 + n mod 10) :: acc
            else digits (S fuel) (n / 10) ((48 + n mod 10) :: acc)).
    destruct (n <? 10).
    + exists [48 + n mod 10]. cbn [forallb]. by rewrite mod_10_digit.
    + destruct (IH (n / 10) ((48 + n mod 10) :: acc)) as (ds & -> & Hne & Hds).
      exists (ds ++ [48 + n mod 10]). rewrite <- app_assoc.
      split; [done|]. split; [by destruct ds|].
      rewrite forallb_app, Hds. cbn [forallb]. by rewrite mod_10_digit.
Qed.

Lemma decimal_digits i :
  ∃ d ds, decimal i = d :: ds ∧ forallb is_digit (d :: ds) = true.
Proof.
  unfold decimal. destruct (digits_spec i (N.of_nat i) []) as (ds & -> & Hne & H).
  rewrite app_nil_r. destruct ds as [|d ds]; [done|]. eauto.
Qed.

Lemma digits_value fuel n acc :
  (N.to_nat n < fuel)%nat →
  ∃ ds, digits fuel n acc = ds ++ acc ∧ read_decimal ds = n.
Proof.
  revert n acc. induction fuel as [|fuel IH]; intros n acc Hfuel; [lia|].
  cbn [digits]. destruct (N.ltb_spec n 10) as [Hn|Hn].
  - exists [48 + n mod 10]. split; [done|].
    unfold read_decimal. simpl foldl. rewrite N.mod_small by done. lia.
  - assert (n / 10 < n) as Hdiv by (apply N.div_lt; lia).
    destruct (IH (n / 10) ((48 + n mod 10) :: acc)) as (ds & -> & Hds); [lia|].
    exists (ds ++ [48 + n mod 10]). rewrite <- app_assoc. split; [done|].
    unfold read_decimal in *. rewrite foldl_app, Hds. simpl foldl.
    pose proof (N.div_mod n 10 ltac:(lia)) as Heq.
    clear -Heq. revert Heq. generalize (n / 10) (n mod 10). lia.
Qed.

Lemma decimal_value n : read_decimal (decimal n) = N.of_nat n.
Proof.
  unfold decimal.
  destruct (digits_value (S n) (N.of_nat n) []) as (ds & -> & Hds); [lia|].
  by rewrite app_nil_r.
Qed.

Lemma forallb_digit_word ds :
  forallb is_digit ds = true → forallb is_word ds = true.
Proof.
  induction ds as [|d ds IH]; simpl; [done|].
  intros [Hd Hds]%andb_true_iff. by rewrite (is_digit_word d Hd), IH.
Qed.

End Markers.

(** ** One pass of [replaceAll] and the single-pass rewrite *)

Section Passes.

Implicit Types (c : N) (s w p r : jsstring) (σ : jsstring → option nat).

Lemma replaceAll_skip p r w s :
  replaceAll p r (length w) (w ++ s) = replaceAll p r 0 s.
Proof. induction w as [|c w IH]; simpl; [by destruct s | done]. Qed.

Lemma rewrite_skip σ w s :
  rewrite σ (length w) (w ++ s) = rewrite σ 0 s.
Proof. induction w as [|c w IH]; simpl; [by destruct s | done]. Qed.

Lemma replaceAll_words p r w s :
  forallb is_word w = true →
  replaceAll p r 0 (w ++ s) = w ++ replaceAll p r 0 s.
Proof.
  induction w as [|c w IH]; simpl; [done|].
  intros [Hc Hw]%andb_true_iff.
  by rewrite (is_word_not_dollar c Hc), IH.
Qed.

Lemma rewrite_words σ w s :
  forallb is_word w = true →
  rewrite σ 0 (w ++ s) = w ++ rewrite σ 0 s.
Proof.
  induction w as [|c w IH]; simpl; [done|].
  intros [Hc Hw]%andb_true_iff.
  by rewrite (is_word_not_dollar c Hc), IH.
Qed.

(** The unfolding equations of the two scans at a [$]. *)
Lemma replaceAll_match p r s :
  forallb is_word p = true → lookahead s = true →
  replaceAll p r 0 (dollar :: p ++ s) = r ++ replaceAll p r 0 s.
Proof.
  intros Hp Hs. simpl.
  assert (matches_at p (p ++ s) = true) as -> by by apply matches_at_word.
  by rewrite replaceAll_skip.
Qed.

Lemma replaceAll_no_match p r s :
  matches_at p s = false →
  replaceAll p r 0 (dollar :: s) = dollar :: replaceAll p r 0 s.
Proof. intros H. simpl. by rewrite H. Qed.

Lemma replaceAll_other p r c s :
  c ≠ dollar → replaceAll p r 0 (c :: s) = c :: replaceAll p r 0 s.
Proof. intros H%N.eqb_neq. simpl. by rewrite H. Qed.

Lemma rewrite_token σ w s i :
  is_identifier w = true → lookahead s = true → σ w = Some i →
  rewrite σ 0 (dollar :: w ++ s) = marker i ++ rewrite σ 0 s.
Proof.
  intros Hw Hs Hi.
  destruct (is_identifier_inv w Hw) as (a & w' & -> & Ha & Hall).
  assert (take_while is_word ((a :: w') ++ s) = a :: w') as Htw.
  { apply take_while_app_all; [done|].
    destruct s as [|d s]; simpl in *; [done|]. by destruct (is_word d). }
  cbn [rewrite]. rewrite N.eqb_refl. cbn [andb].
  change (head_is is_ident_start ((a :: w') ++ s)) with (is_ident_start a).
  rewrite Ha, Htw, Hi. by rewrite rewrite_skip.
Qed.

Lemma rewrite_unindexed σ w s :
  is_identifier w = true → lookahead s = true → σ w = None →
  rewrite σ 0 (dollar :: w ++ s) = dollar :: w ++ rewrite σ 0 s.
Proof.
  intros Hw Hs Hi.
  destruct (is_identifier_inv w Hw) as (a & w' & -> & Ha & Hall).
  assert (take_while is_word ((a :: w') ++ s) = a :: w') as Htw.
  { apply take_while_app_all; [done|].
    destruct s as [|d s]; simpl in *; [done|]. by destruct (is_word d). }
  cbn [rewrite]. rewrite N.eqb_refl. cbn [andb].
  change (head_is is_ident_start ((a :: w') ++ s)) with (is_ident_start a).
  rewrite Ha, Htw, Hi. f_equal. by apply rewrite_words.
Qed.

Lemma rewrite_plain σ c s :
  (c =? dollar) && head_is is_ident_start s = false →
  rewrite σ 0 (c :: s) = c :: rewrite σ 0 s.
Proof. intros H. simpl. by rewrite H. Qed.

(** A pass leaves an emitted [$<index>] as it is. *)
Lemma replaceAll_marker p r i s :
  is_identifier p = true →
  replaceAll p r 0 (marker i ++ s) = marker i ++ replaceAll p r 0 s.
Proof.
  intros Hp. unfold marker.
  destruct (decimal_digits i) as (d & ds & -> & Hds).
  change (replaceAll p r 0 (dollar :: (d :: ds) ++ s)
          = dollar :: (d :: ds) ++ replaceAll p r 0 s).
  rewrite replaceAll_no_match.
  - f_equal. apply replaceAll_words. by apply forallb_digit_word.
  - apply matches_at_head; [done|]. simpl in *.
    apply andb_true_iff in Hds as [Hd _].
    by apply is_digit_not_ident_start.
Qed.

(** The rewrite keeps the first code unit of the text. *)
Lemma rewrite_head σ s : head (rewrite σ 0 s) = head s.
Proof.
  destruct s as [|c s]; simpl; [done|].
  destruct (N.eqb_spec c dollar) as [->|]; simpl; [|done].
  destruct (head_is is_ident_start s); [|done].
  by destruct (σ (take_while is_word s)).
Qed.

Lemma head_is_head (f : N → bool) s s' :
  head s = head s' → head_is f s = head_is f s'.
Proof. destruct s, s'; simpl; congruence. Qed.

Lemma lookahead_head s s' : head s = head s' → lookahead s = lookahead s'.
Proof. destruct s, s'; simpl; congruence. Qed.

End Passes.

(** ** The passes of the loop add up to the single-pass rewrite *)

Section Refinement.

Implicit Types (s w name : jsstring) (σ : jsstring → option nat).

(** After the names indexed by [σ] have been replaced, the pass for one
    more name gives the rewrite that indexes this name too. *)
Lemma replaceAll_rewrite σ σ' name i :
  is_identifier name = true →
  σ name = None → σ' name = Some i →
  (∀ w, w ≠ name → σ' w = σ w) →
  ∀ s, replaceAll name (marker i) 0 (rewrite σ 0 s) = rewrite σ' 0 s.
Proof.
  intros Hname Hσ Hσ' Hother s.
  remember (length s) as n eqn:Hn. revert s Hn.
  induction n as [n IH] using lt_wf_ind. intros [|c rest] Hn; [done|].
  simpl in Hn.
  destruct ((c =? dollar) && head_is is_ident_start rest) eqn:Hc.
  - apply andb_true_iff in Hc as [->%N.eqb_eq Hstart].
    pose proof (take_while_identifier rest Hstart) as Hw.
    pose proof (lookahead_drop_while rest) as Ht.
    pose proof (drop_while_length is_word rest) as Hlen.
    rewrite <- (take_drop_while is_word rest).
    set (w := take_while is_word rest) in *.
    set (t := drop_while is_word rest) in *.
    assert (lookahead (rewrite σ 0 t) = true) as Ht'.
    { by rewrite (lookahead_head _ t (rewrite_head σ t)). }
    assert (replaceAll name (marker i) 0 (rewrite σ 0 t) = rewrite σ' 0 t)
      as IHt by (apply (IH (length t)); [lia | done]).
    destruct (is_identifier_inv w Hw) as (_ & _ & _ & _ & Hwall).
    destruct (is_identifier_inv name Hname) as (_ & _ & _ & _ & Hnall).
    destruct (σ w) as [j|] eqn:Hj.
    + assert (w ≠ name) as Hne by congruence.
      rewrite (rewrite_token σ w t j), (rewrite_token σ' w t j); try done.
      * by rewrite replaceAll_marker, IHt.
      * by rewrite Hother.
    + rewrite (rewrite_unindexed σ w t); try done.
      destruct (decide (w = name)) as [->|Hne].
      * rewrite replaceAll_match, (rewrite_token σ' name t i); try done.
        by rewrite IHt.
      * rewrite replaceAll_no_match, replaceAll_words, IHt; try done.
        -- rewrite (rewrite_unindexed σ' w t); try done.
           by rewrite Hother.
        -- destruct (matches_at name (w ++ rewrite σ 0 t)) eqn:Hm; [|done].
           apply matches_at_word in Hm; done.
  - rewrite !rewrite_plain by done.
    assert (replaceAll name (marker i) 0 (rewrite σ 0 rest) = rewrite σ' 0 rest)
      as IHr by (apply (IH (length rest)); [lia | done]).
    destruct (N.eqb_spec c dollar) as [->|Hne].
    + simpl in Hc. rewrite replaceAll_no_match; [by rewrite IHr|].
      apply matches_at_head; [done|].
      by rewrite (head_is_head _ _ rest (rewrite_head σ rest)).
    + by rewrite replaceAll_other, IHr.
Qed.

(** With no name indexed, the rewrite copies the template. *)
Lemma rewrite_no_index σ s : (∀ w, σ w = None) → rewrite σ 0 s = s.
Proof.
  intros Hσ. induction s as [|c s IH]; simpl; [done|].
  destruct ((c =? dollar) && head_is is_ident_start s); rewrite ?Hσ, IH; done.
Qed.

Lemma index_from_None names i name :
  index_from names i name = None ↔ name ∉ names.
Proof.
  revert i. induction names as [|n names IH]; intros i; simpl.
  - split; [intros _; apply not_elem_of_nil | done].
  - rewrite not_elem_of_cons. destruct (decide (n = name)) as [->|Hne].
    + split; [done | by intros []].
    + rewrite IH. naive_solver.
Qed.

Lemma index_from_app_l names names' i name :
  name ∈ names →
  index_from (names ++ names') i name = index_from names i name.
Proof.
  revert i. induction names as [|n names IH]; intros i Hin; simpl.
  - by apply elem_of_nil in Hin.
  - destruct (decide (n = name)); [done|].
    apply IH. apply elem_of_cons in Hin as [|]; [congruence | done].
Qed.

Lemma index_from_app_r names names' i name :
  name ∉ names →
  index_from (names ++ names') i name
  = index_from names' (length names + i) name.
Proof.
  revert i. induction names as [|n names IH]; intros i Hin; simpl; [done|].
  apply not_elem_of_cons in Hin as [Hne Hin].
  destruct (decide (n = name)); [congruence|].
  rewrite IH by done. f_equal. lia.
Qed.

(** The index of a name is one more than its position among the names. *)
Lemma index_from_lookup names name k :
  NoDup names →
  index_from names 1 name = Some (S k) ↔ names !! k = Some name.
Proof.
  assert (∀ i, NoDup names →
    index_from names i name = Some (i + k)%nat ↔ names !! k = Some name)
    as H; [|apply (H 1%nat)].
  revert k. induction names as [|n names IH]; intros k i Hnd; simpl; [done|].
  apply NoDup_cons in Hnd as [Hn Hnd].
  destruct (decide (n = name)) as [->|Hne].
  - destruct k as [|k]; simpl.
    + split; [done | intros _; f_equal; lia].
    + split; [intros [=]; lia|].
      intros Hk. by apply list_elem_of_lookup_2 in Hk.
  - destruct k as [|k]; simpl.
    + split; [|congruence]. intros Hi. exfalso.
      assert (∀ names' j m, index_from names' j name = Some m → (j ≤ m)%nat)
        as Hge.
      { clear. induction names' as [|a names' IH]; intros j m; simpl; [done|].
        destruct (decide (a = name)); [intros [=]; lia|].
        intros Hm. apply IH in Hm. lia. }
      apply Hge in Hi. lia.
    + rewrite <- (IH k (S i) Hnd). by replace (S i + k)%nat with (i + S k)%nat by lia.
Qed.

End Refinement.

(** ** The set of names *)

Section Names.

Implicit Types (l acc pre post : list jsstring) (x : jsstring).

Lemma Set_add_elem_of acc x y : y ∈ Set_add acc x ↔ y ∈ acc ∨ y = x.
Proof.
  unfold Set_add. destruct (decide (x ∈ acc)) as [Hin|Hin].
  - naive_solver.
  - rewrite elem_of_app, list_elem_of_singleton. naive_solver.
Qed.

Lemma foldl_Set_add_elem_of acc l y :
  y ∈ foldl Set_add acc l ↔ y ∈ acc ∨ y ∈ l.
Proof.
  revert acc. induction l as [|x l IH]; intros acc; simpl.
  - rewrite elem_of_nil. naive_solver.
  - rewrite IH, Set_add_elem_of, elem_of_cons. naive_solver.
Qed.

Lemma foldl_Set_add_NoDup acc l : NoDup acc → NoDup (foldl Set_add acc l).
Proof.
  revert acc. induction l as [|x l IH]; intros acc Hacc; simpl; [done|].
  apply IH. unfold Set_add. destruct (decide (x ∈ acc)) as [Hin|Hin]; [done|].
  apply NoDup_app. split; [done|]. split; [|apply NoDup_singleton].
  intros y Hy ->%list_elem_of_singleton. done.
Qed.

(** Adding to a set only appends to it. *)
Lemma foldl_Set_add_grows acc l : ∃ ext, foldl Set_add acc l = acc ++ ext.
Proof.
  revert acc. induction l as [|x l IH]; intros acc; simpl.
  - exists []. by rewrite app_nil_r.
  - destruct (IH (Set_add acc x)) as [ext ->]. unfold Set_add.
    destruct (decide (x ∈ acc)); [by exists ext|].
    exists ([x] ++ ext). by rewrite app_assoc.
Qed.

Lemma new_Set_elem_of l x : x ∈ new_Set l ↔ x ∈ l.
Proof.
  unfold new_Set. rewrite foldl_Set_add_elem_of, elem_of_nil. naive_solver.
Qed.

Lemma new_Set_elem_of_1 l x : x ∈ new_Set l → x ∈ l.
Proof. apply new_Set_elem_of. Qed.

Lemma new_Set_NoDup l : NoDup (new_Set l).
Proof. apply foldl_Set_add_NoDup, NoDup_nil_2. Qed.

(** The set lists the names by first appearance: a name comes right after
    the distinct names that appear before its first occurrence. *)
Lemma new_Set_first_appearance pre x post :
  x ∉ pre → ∃ ext, new_Set (pre ++ x :: post) = new_Set pre ++ x :: ext.
Proof.
  intros Hx. unfold new_Set. rewrite foldl_app. simpl.
  fold (new_Set pre). unfold Set_add at 2.
  destruct (decide (x ∈ new_Set pre)) as [Hin|_].
  { exfalso. apply Hx. by apply new_Set_elem_of. }
  destruct (foldl_Set_add_grows (new_Set pre ++ [x]) post) as [ext ->].
  exists ext. by rewrite <- app_assoc.
Qed.

(** The number of distinct names. *)
Lemma new_Set_length l :
  length (new_Set l) = size (list_to_set l : gset jsstring).
Proof.
  rewrite <- (size_list_to_set (C:=gset jsstring) (new_Set l))
    by apply new_Set_NoDup.
  f_equal. apply set_eq. intros x.
  by rewrite !elem_of_list_to_set, new_Set_elem_of.
Qed.

Lemma matchAll_identifiers q : Forall (λ n, is_identifier n = true) (matchAll q).
Proof.
  induction q as [|c q IH]; simpl; [done|].
  destruct ((c =? dollar) && head_is is_ident_start q) eqn:Hc; [|done].
  apply andb_true_iff in Hc as [_ Hc].
  constructor; [by apply take_while_identifier | done].
Qed.

End Names.

(** ** The loop *)

Section Loop.

Context (args : NamedArgs).

Implicit Types (st : LoopState) (names todo : list jsstring).

Lemma push_defined arr v param :
  v ≠ JsUndefined → convert v = Normal param →
  push arr v = Normal (arr ++ [param]).
Proof. destruct v; simpl; try done; by intros _ [= <-]. Qed.

Lemma push_throws arr v e : convert v = Throw e → push arr v = Throw e.
Proof. destruct v; simpl; try done; by intros [= <-]. Qed.

Lemma convert_throws_defined v e : convert v = Throw e → v ≠ JsUndefined.
Proof. by destruct v. Qed.

Lemma loop_body_supplied st name param :
  supplied args name → convert (get args name) = Normal param →
  loop_body args st name
  = Normal {| query := replaceAll name (marker (idx st)) 0 (query st);
              paramArray := paramArray st ++ [param];
              idx := S (idx st) |}.
Proof.
  unfold supplied, loop_body. intros H Hc.
  rewrite (push_defined _ _ _ H Hc). revert H. by destruct (get args name).
Qed.

Lemma loop_body_missing st name :
  get args name = JsUndefined →
  loop_body args st name = Throw (MissingArgumentError name).
Proof. unfold loop_body. by intros ->. Qed.

Lemma loop_body_throws st name e :
  convert (get args name) = Throw e → loop_body args st name = Throw e.
Proof.
  unfold loop_body. intros Hc. rewrite (push_throws _ _ _ Hc).
  apply convert_throws_defined in Hc. revert Hc. by destruct (get args name).
Qed.

Lemma for_of_app {S A} (body : S → A → Completion S) (l1 l2 : list A) (s : S) :
  for_of body (l1 ++ l2) s
  = match for_of body l1 s with
    | Normal s' => for_of body l2 s'
    | Throw e => Throw e
    end.
Proof.
  revert s. induction l1 as [|x l1 IH]; intros s; simpl; [done|].
  destruct (body s x); [apply IH | done].
Qed.

Lemma for_of_supplied names st :
  Forall (supplied args) names → Forall (converts args) names →
  ∃ st', for_of (loop_body args) names st = Normal st'.
Proof.
  revert st. induction names as [|n names IH]; intros st Hs Hc; simpl; [eauto|].
  apply Forall_cons in Hs as [Hn Hs]. apply Forall_cons in Hc as [[p Hp] Hc].
  rewrite (loop_body_supplied _ _ p) by done. by apply IH.
Qed.

(** The state of the loop after the names [done]: the template rewritten
    for these names, their values, and the next index. *)
Lemma for_of_rewrite q done todo arr i values :
  NoDup (done ++ todo) →
  Forall (λ n, is_identifier n = true) todo →
  Forall (supplied args) todo →
  Forall2 (λ n param, convert (get args n) = Normal param) todo values →
  i = S (length done) →
  for_of (loop_body args) todo
    {| query := rewrite (index_from done 1) 0 q; paramArray := arr; idx := i |}
  = Normal {| query := rewrite (index_from (done ++ todo) 1) 0 q;
              paramArray := arr ++ values;
              idx := i + length todo |}.
Proof.
  intros Hnd Hid Hs Hc. revert done arr i Hnd Hid Hs.
  induction Hc as [|n p todo values Hp Hc IH];
    intros done arr i Hnd Hid Hs ->; simpl.
  - by rewrite !app_nil_r, Nat.add_0_r.
  - apply Forall_cons in Hid as [Hn Hid]. apply Forall_cons in Hs as [Hsn Hs].
    assert (n ∉ done) as Hnew.
    { apply NoDup_app in Hnd as (_ & Hnd & _). intros Hin.
      apply (Hnd n Hin). apply elem_of_cons. by left. }
    rewrite (loop_body_supplied _ _ p) by done. simpl.
    rewrite (replaceAll_rewrite (index_from done 1)
               (index_from (done ++ [n]) 1) n (S (length done))); try done.
    + rewrite (IH (done ++ [n]) (arr ++ [p]) (S (S (length done)))); try done.
      * rewrite <- !app_assoc. simpl. do 2 f_equal. lia.
      * by rewrite <- app_assoc.
      * rewrite length_app. simpl. lia.
    + by apply index_from_None.
    + rewrite index_from_app_r by done. simpl.
      rewrite decide_True by done. f_equal. lia.
    + intros w Hw. destruct (decide (w ∈ done)) as [Hin|Hin].
      * by apply index_from_app_l.
      * rewrite index_from_app_r by done. simpl.
        rewrite decide_False by done. symmetry. by apply index_from_None.
Qed.

(** The values of names that can all be converted. *)
Lemma converts_values names :
  Forall (converts args) names →
  ∃ values,
    Forall2 (λ n param, convert (get args n) = Normal param) names values.
Proof.
  induction 1 as [|n names [p Hp] _ [values IH]]; [by exists []|].
  exists (p :: values). by constructor.
Qed.

Lemma values_converts names values :
  Forall2 (λ n param, convert (get args n) = Normal param) names values →
  Forall (converts args) names.
Proof.
  induction 1 as [|n p names values Hp _ IH]; constructor; [by exists p|done].
Qed.

End Loop.

(** ** What [named] returns *)

Section Named.

Implicit Types (q : jsstring) (args : NamedArgs) (name : jsstring).

(** Looking a name up gives [undefined] when the object has the key bound
    to [undefined], or has no such key and the name is not inherited. *)
Lemma Object_prototype_defined name v :
  Object_prototype !! name = Some v → v ≠ JsUndefined.
Proof.
  unfold Object_prototype, native_function. intros H%elem_of_list_to_map_2.
  repeat (apply elem_of_cons in H as [[= _ ->]|H]; [done|]).
  by apply elem_of_nil in H.
Qed.

Lemma get_undefined args name :
  get args name = JsUndefined
  ↔ args !! name = Some JsUndefined
    ∨ (args !! name = None ∧ ¬ inherited name).
Proof.
  unfold get, inherited. destruct (args !! name) as [v|]; simpl.
  - split; [intros ->; by left | by intros [[= ->]|[[=] _]]].
  - destruct (Object_prototype !! name) as [v|] eqn:Hv; simpl.
    + split.
      * intros ->. by apply Object_prototype_defined in Hv.
      * intros [[=]|[_ H]]. destruct H. by exists v.
    + split; [|done]. intros _. right. split; [done|]. by intros [v [=]].
Qed.

Lemma get_own args name v : args !! name = Some v → get args name = v.
Proof. unfold get. by intros ->. Qed.

Lemma supplied_or_undefined args name :
  supplied args name ∨ get args name = JsUndefined.
Proof.
  unfold supplied. destruct (get args name); (by right) || (by left).
Qed.

Lemma converts_or_throws args name :
  converts args name ∨ ∃ e, convert (get args name) = Throw e.
Proof.
  unfold converts. destruct (convert (get args name)) as [p|e]; eauto.
Qed.

Lemma converts_not_throws args name e :
  converts args name → convert (get args name) = Throw e → False.
Proof. intros [p Hp] He. congruence. Qed.

(** In a list of names, either every name is supplied and can be
    converted, or there is a first one that is not supplied or cannot be
    converted. *)
Lemma first_failing args (l : list jsstring) :
  (Forall (supplied args) l ∧ Forall (converts args) l)
  ∨ ∃ pre name post, l = pre ++ name :: post
      ∧ Forall (supplied args) pre ∧ Forall (converts args) pre
      ∧ (get args name = JsUndefined
         ∨ ∃ e, convert (get args name) = Throw e).
Proof.
  induction l as [|n l IH]; [by left|].
  destruct (supplied_or_undefined args n) as [Hn|Hn];
    [destruct (converts_or_throws args n) as [Hc|Hc]|].
  - destruct IH as [[IH1 IH2]|(pre & name & post & -> & Hpre & Hcpre & Hname)].
    + left. split; by constructor.
    + right. exists (n :: pre), name, post. split; [done|].
      split; [by constructor|]. split; [by constructor | done].
  - right. exists [], n, l. repeat split; try done. by right.
  - right. exists [], n, l. repeat split; try done. by left.
Qed.

(** When every name of the template is supplied and can be converted,
    [named] returns the single-pass rewrite of the template, trimmed, and
    the converted values of the distinct names. *)
Lemma named_compiles q args values :
  Forall (supplied args) (matchAll q) →
  Forall2 (λ n param, convert (get args n) = Normal param)
    (new_Set (matchAll q)) values →
  named q args
  = Normal {| preparedQuery :=
                trim (rewrite (index_from (new_Set (matchAll q)) 1) 0 q);
              params := values |}.
Proof.
  intros Hs Hc. unfold named.
  rewrite <- (rewrite_no_index (index_from [] 1) q) at 2 by done.
  rewrite (for_of_rewrite args q [] (new_Set (matchAll q)) [] 1 values);
    try done.
  - apply new_Set_NoDup.
  - pose proof (matchAll_identifiers q) as Hid.
    rewrite Forall_forall in Hid. apply Forall_forall.
    intros n Hn%new_Set_elem_of_1. by apply Hid.
  - rewrite Forall_forall in Hs. apply Forall_forall.
    intros n Hn%new_Set_elem_of_1. by apply Hs.
Qed.

Lemma Forall_new_Set (P : jsstring → Prop) (l : list jsstring) :
  Forall P l → Forall P (new_Set l).
Proof.
  rewrite !Forall_forall. intros H n Hn%new_Set_elem_of_1. by apply H.
Qed.

(** The same, the values left to be found. *)
Lemma named_returns q args :
  Forall (supplied args) (matchAll q) →
  Forall (converts args) (matchAll q) →
  ∃ values,
    Forall2 (λ n param, convert (get args n) = Normal param)
      (new_Set (matchAll q)) values
    ∧ named q args
      = Normal {| preparedQuery :=
                    trim (rewrite (index_from (new_Set (matchAll q)) 1) 0 q);
                  params := values |}.
Proof.
  intros Hs Hc.
  destruct (converts_values args (new_Set (matchAll q))) as [values Hv];
    [by apply Forall_new_Set|].
  exists values. split; [done|]. by apply named_compiles.
Qed.

(** [named] throws what the body of the loop throws at the first name of
    the template at which it does. *)
Lemma named_throws_first q args pre name post e :
  matchAll q = pre ++ name :: post →
  Forall (supplied args) pre → Forall (converts args) pre →
  (get args name = JsUndefined ∧ e = MissingArgumentError name
   ∨ convert (get args name) = Throw e) →
  named q args = Throw e.
Proof.
  intros Hq Hpre Hcpre Hname.
  assert (name ∉ pre) as Hnew.
  { intros Hin. rewrite Forall_forall in Hpre, Hcpre.
    destruct Hname as [[Hname _]|Hname].
    - by apply (Hpre name Hin).
    - by apply (converts_not_throws args name e (Hcpre name Hin)). }
  destruct (new_Set_first_appearance pre name post Hnew) as [ext Hset].
  rewrite <- Hq in Hset. unfold named. rewrite Hset, for_of_app.
  destruct (for_of_supplied args (new_Set pre)
              {| query := q; paramArray := []; idx := 1 |}) as [st ->];
    [by apply Forall_new_Set | by apply Forall_new_Set |].
  simpl. destruct Hname as [[Hname ->]|Hname].
  - by rewrite loop_body_missing.
  - by rewrite (loop_body_throws _ _ _ e).
Qed.

Lemma named_Normal_supplied q args r :
  named q args = Normal r →
  Forall (supplied args) (matchAll q) ∧ Forall (converts args) (matchAll q).
Proof.
  intros Hr.
  destruct (first_failing args (matchAll q))
    as [H|(pre & name & post & Hq & Hpre & Hcpre & [Hname|[e Hname]])];
    [done| |].
  - by rewrite (named_throws_first q args pre name post
                  (MissingArgumentError name)) in Hr; auto.
  - by rewrite (named_throws_first q args pre name post e) in Hr; auto.
Qed.

(** What a returned result is made of. *)
Lemma named_Normal_inv q args r :
  named q args = Normal r →
  Forall (supplied args) (matchAll q)
  ∧ preparedQuery r = trim (rewrite (index_from (new_Set (matchAll q)) 1) 0 q)
  ∧ Forall2 (λ n param, convert (get args n) = Normal param)
      (new_Set (matchAll q)) (params r).
Proof.
  intros Hr. destruct (named_Normal_supplied q args r Hr) as [Hs Hc].
  destruct (named_returns q args Hs Hc) as (values & Hv & Hn).
  rewrite Hn in Hr. by injection Hr as <-.
Qed.

End Named.

(** ** A [$] cuts the text in two *)

(** No match runs over a [$], and a [$] is a boundary for the match before
    it: the text before a [$] and the text from it on are scanned
    independently. *)
Section Cut.

Implicit Types (c : N) (s a p r : jsstring) (σ : jsstring → option nat).

Lemma lookahead_app_dollar a s : lookahead (a ++ dollar :: s) = lookahead a.
Proof. by destruct a. Qed.

Lemma head_is_app_dollar a s :
  head_is is_ident_start (a ++ dollar :: s) = head_is is_ident_start a.
Proof. by destruct a. Qed.

Lemma take_while_app_dollar a s :
  take_while is_word (a ++ dollar :: s) = take_while is_word a.
Proof.
  induction a as [|c a IH]; simpl; [done|]. by rewrite IH.
Qed.

Lemma take_while_length (f : N → bool) s :
  (length (take_while f s) ≤ length s)%nat.
Proof.
  induction s as [|c s IH]; simpl; [lia|]. destruct (f c); simpl; lia.
Qed.

Lemma starts_with_length p s :
  starts_with p s = true → (length p ≤ length s)%nat.
Proof.
  revert s. induction p as [|b p IH]; intros [|d s]; simpl; try done; try lia.
  intros [_ H]%andb_true_iff. apply IH in H. lia.
Qed.

Lemma matches_at_app_dollar p a s :
  forallb is_word p = true →
  matches_at p (a ++ dollar :: s) = matches_at p a.
Proof.
  unfold matches_at. revert a.
  induction p as [|b p IH]; intros a Hp; simpl in *.
  - apply lookahead_app_dollar.
  - apply andb_true_iff in Hp as [Hb Hp]. destruct a as [|d a]; simpl.
    + by rewrite (is_word_not_dollar b Hb).
    + destruct (b =? d); simpl; [by apply IH | done].
Qed.

Lemma replaceAll_app_dollar p r k a s :
  forallb is_word p = true → (k ≤ length a)%nat →
  replaceAll p r k (a ++ dollar :: s)
  = replaceAll p r k a ++ replaceAll p r 0 (dollar :: s).
Proof.
  intros Hp. revert k. induction a as [|c a IH]; intros k Hk.
  - by replace k with 0%nat by (simpl in Hk; lia).
  - destruct k as [|k]; cbn [replaceAll app].
    + rewrite matches_at_app_dollar by done.
      destruct ((c =? dollar) && matches_at p a) eqn:Hc.
      * apply andb_true_iff in Hc as [_ [Hc _]%andb_true_iff].
        apply starts_with_length in Hc.
        by rewrite IH, app_assoc by done.
      * by rewrite IH by lia.
    + apply IH. simpl in Hk. lia.
Qed.

Lemma rewrite_app_dollar σ k a s :
  (k ≤ length a)%nat →
  rewrite σ k (a ++ dollar :: s) = rewrite σ k a ++ rewrite σ 0 (dollar :: s).
Proof.
  revert k. induction a as [|c a IH]; intros k Hk.
  - by replace k with 0%nat by (simpl in Hk; lia).
  - destruct k as [|k]; cbn [rewrite app].
    + rewrite head_is_app_dollar, take_while_app_dollar.
      pose proof (take_while_length is_word a).
      destruct ((c =? dollar) && head_is is_ident_start a).
      * destruct (σ (take_while is_word a)).
        -- by rewrite IH, app_assoc by done.
        -- by rewrite IH by lia.
      * by rewrite IH by lia.
    + apply IH. simpl in Hk. lia.
Qed.

Lemma matchAll_app_dollar a s :
  matchAll (a ++ dollar :: s) = matchAll a ++ matchAll (dollar :: s).
Proof.
  induction a as [|c a IH]; [done|]. cbn [matchAll app].
  rewrite head_is_app_dollar, take_while_app_dollar, IH.
  by destruct ((c =? dollar) && head_is is_ident_start a).
Qed.

End Cut.

(** ** The tests of the repository *)

Example test_basic_scenario (uuid iso : jsstring) :
  named
    (lit "insert into " ++ quoted (lit "user")
       ++ lit " (id, email, password, role, created_at) values ($id, $email, $password, $role, $created_at)")
    (<[lit "id" := JsString uuid]>
       (<[lit "email" := JsString (lit "admin@site.com")]>
          (<[lit "password" := JsString (lit "1knclskcnlc")]>
             (<[lit "role" := JsString (lit "ADMIN")]>
                {[lit "created_at" := JsDate iso]}))))
  = Normal
      {| preparedQuery :=
           lit "insert into " ++ quoted (lit "user")
             ++ lit " (id, email, password, role, created_at) values ($1, $2, $3, $4, $5)";
         params := [JsString uuid; JsString (lit "admin@site.com");
                    JsString (lit "1knclskcnlc"); JsString (lit "ADMIN");
                    JsString iso] |}.
Proof. vm_compute. reflexivity. Qed.

Example test_missing_argument :
  named (lit "select * from entity limit $limit offset $offset")
    {[lit "limit" := JsNumber 20%float]}
  = Throw (MissingArgumentError (lit "offset")).
Proof. vm_compute. reflexivity. Qed.

Example test_camelCase_args :
  named (lit "insert into entity (id, full_name) values ($id, $fullName)")
    (<[lit "id" := JsNumber 300%float]>
       {[lit "fullName" := JsString (lit "Something Random")]})
  = Normal
      {| preparedQuery :=
           lit "insert into entity (id, full_name) values ($1, $2)";
         params := [JsNumber 300%float; JsString (lit "Something Random")] |}.
Proof. vm_compute. reflexivity. Qed.

Example test_pass_array_as_value :
  named (lit "select * from users where id = any($ids) and role = $role")
    (<[lit "ids" := JsArray [JsNumber 10%float; JsNumber 20%float;
                              JsNumber 30%float; JsNumber 40%float]]>
       {[lit "role" := JsString (lit "user")]})
  = Normal
      {| preparedQuery :=
           lit "select * from users where id = any($1) and role = $2";
         params := [JsArray [JsNumber 10%float; JsNumber 20%float;
                             JsNumber 30%float; JsNumber 40%float];
                    JsString (lit "user")] |}.
Proof. vm_compute. reflexivity. Qed.

Example test_type_coercion_in_sql :
  named
    (lit "select u.* from users u where ($email::text is null or u.email = $email::text) and ($age::numeric is null or u.age = $age::numeric)")
    (<[lit "email" := JsString (lit "samaple@site.com")]>
       {[lit "age" := JsNumber 30%float]})
  = Normal
      {| preparedQuery :=
           lit "select u.* from users u where ($1::text is null or u.email = $1::text) and ($2::numeric is null or u.age = $2::numeric)";
         params := [JsString (lit "samaple@site.com"); JsNumber 30%float] |}.
Proof. vm_compute. reflexivity. Qed.

(** ** Properties of the compiler *)

Section FirstAppearance.

Implicit Types (l : list jsstring) (a b : jsstring).


End FirstAppearance.

(** ** Placeholders and recorded names *)

Section Placeholders.

Implicit Types (q pre post : jsstring) (a name : jsstring).

Lemma at_boundary_lookahead s : at_boundary s = lookahead s.
Proof. done. Qed.

Lemma take_while_boundary name post :
  forallb is_word name = true → at_boundary post = true →
  take_while is_word (name ++ post) = name.
Proof.
  intros Hname Hpost. apply take_while_app_all; [done|].
  destruct post as [|d post]; simpl in *; [done|]. by destruct (is_word d).
Qed.

Lemma matchAll_words w s :
  forallb is_word w = true → matchAll (w ++ s) = matchAll s.
Proof.
  induction w as [|c w IH]; simpl; [done|].
  intros [Hc Hw]%andb_true_iff. by rewrite (is_word_not_dollar c Hc), IH.
Qed.

(** The names recorded for a placeholder and the text after it. *)
Lemma matchAll_placeholder name post :
  is_identifier name = true → at_boundary post = true →
  matchAll (dollar :: name ++ post) = name :: matchAll post.
Proof.
  intros Hname Hpost.
  destruct (is_identifier_inv name Hname) as (c & w & -> & Hc & Hall).
  cbn [matchAll]. rewrite N.eqb_refl. cbn [andb].
  change (head_is is_ident_start ((c :: w) ++ post)) with (is_ident_start c).
  rewrite Hc, take_while_boundary by done. f_equal.
  by apply matchAll_words.
Qed.

(** Where a recorded name stands in the template. *)
Lemma matchAll_split q l1 a l2 :
  matchAll q = l1 ++ a :: l2 →
  ∃ pre post,
    q = pre ++ dollar :: a ++ post
    ∧ is_identifier a = true ∧ at_boundary post = true
    ∧ matchAll pre = l1.
Proof.
  revert l1. induction q as [|c q IH]; intros l1 Hq; simpl in Hq.
  - by destruct l1.
  - destruct ((c =? dollar) && head_is is_ident_start q) eqn:Hc.
    + apply andb_true_iff in Hc as [Hd Hh]. apply N.eqb_eq in Hd as ->.
      destruct l1 as [|n l1]; simpl in Hq.
      * injection Hq as <- _. exists [], (drop_while is_word q).
        rewrite take_drop_while. split; [done|].
        split; [by apply take_while_identifier|].
        split; [apply lookahead_drop_while | done].
      * injection Hq as <- Hq.
        destruct (IH l1 Hq) as (pre & post & -> & Ha & Hpost & Hpre).
        exists (dollar :: pre), post. split; [done|]. split; [done|].
        split; [done|]. simpl.
        rewrite head_is_app_dollar in Hh.
        by rewrite Hh, take_while_app_dollar, Hpre.
    + destruct (IH l1 Hq) as (pre & post & -> & Ha & Hpost & Hpre).
      exists (c :: pre), post. split; [done|]. split; [done|].
      split; [done|]. simpl.
      rewrite head_is_app_dollar in Hc. by rewrite Hc.
Qed.

(** The recorded names are the names of the placeholders. *)
Lemma occurs_in_matchAll q name : name ∈ matchAll q ↔ occurs_in q name.
Proof.
  split.
  - intros (l1 & l2 & Hq)%list_elem_of_split.
    destruct (matchAll_split q l1 name l2 Hq) as (pre & post & H & Hn & Hp & _).
    by exists pre, post.
  - intros (pre & post & -> & Hn & Hp).
    rewrite matchAll_app_dollar, matchAll_placeholder by done.
    apply elem_of_app. right. apply elem_of_cons. by left.
Qed.

Lemma Forall_occurs_in (P : jsstring → Prop) q :
  (∀ n, occurs_in q n → P n) → Forall P (matchAll q).
Proof.
  intros H. apply Forall_forall. intros n Hn. by apply H, occurs_in_matchAll.
Qed.

End Placeholders.

(** C2 does not hold of the code for a name that every object inherits:
    [constructor] is a placeholder of the template and is absent from the
    empty argument object, which counts as missing; yet the lookup finds
    the member inherited from [Object.prototype], and [named] returns a
    compiled query whose parameter is the text of that function, where
    [MissingArgumentError] was to be thrown. *)
Theorem named_inherited_name_not_missing :
  occurs_in (lit "select $constructor") (lit "constructor")
  ∧ missing ∅ (lit "constructor")
  ∧ named (lit "select $constructor") ∅
    = Normal
        {| preparedQuery := lit "select $1";
           params :=
             [JsString (lit "function Object() { [native code] }")] |}.
Proof.
  split; [|split].
  - exists (lit "select "), []. by vm_compute.
  - by left.
  - vm_compute. reflexivity.
Qed.

(** C3: the template of the repeated-parameter scenario, compiled with
    [id] 300, [name] "admin" and [created_at] a date whose ISO-8601 form is
    [iso], gives the text with [$1, $2, $3, $3] and the three parameters
    300, "admin" and [iso]: the two occurrences of [created_at] share index
    3 and one entry. *)
Theorem named_repeated_params (iso : jsstring) :
  named
    (lit "insert into record (id, name, created_at, updated_at) values ($id, $name, $created_at, $created_at)")
    (<[lit "id" := JsNumber 300%float]>
       (<[lit "name" := JsString (lit "admin")]>
          {[lit "created_at" := JsDate iso]}))
  = Normal
      {| preparedQuery :=
           lit "insert into record (id, name, created_at, updated_at) values ($1, $2, $3, $3)";
         params := [JsNumber 300%float; JsString (lit "admin"); JsString iso] |}.
Proof. vm_compute. reflexivity. Qed.



(** C4: the pass for a name leaves [$name] as it is where an identifier
    code unit follows, and replaces it where a non-identifier code unit or
    the end of the text follows; a template naming two different
    placeholders, all arguments supplied and converted, compiles to a text
    in which each token [$a], [$b] is rewritten to its own index, the two
    indices differ, and each index is bound to the value of its own name;
    so it is for [$country] and [$country_code]. *)
Theorem named_boundary_aware :
  (∀ name repl pre c s,
     is_identifier name = true → is_word c = true →
     replaceAll name repl 0 (pre ++ dollar :: name ++ c :: s)
     = replaceAll name repl 0 pre
         ++ dollar :: name ++ c :: replaceAll name repl 0 s)
  ∧ (∀ name repl pre s,
       is_identifier name = true → lookahead s = true →
       replaceAll name repl 0 (pre ++ dollar :: name ++ s)
       = replaceAll name repl 0 pre ++ repl ++ replaceAll name repl 0 s)
  ∧ (∀ q args a b,
       a ∈ matchAll q → b ∈ matchAll q → a ≠ b →
       Forall (supplied args) (matchAll q) →
       Forall (converts args) (matchAll q) →
       ∃ r index i j,
         named q args = Normal r
         ∧ i ≠ j
         ∧ index a = Some (S i) ∧ index b = Some (S j)
         ∧ Normal <$> params r !! i = Some (convert (get args a))
         ∧ Normal <$> params r !! j = Some (convert (get args b))
         ∧ preparedQuery r = trim (rewrite index 0 q)
         ∧ (∀ n k pre s,
              index n = Some k → is_identifier n = true →
              lookahead s = true →
              rewrite index 0 (pre ++ dollar :: n ++ s)
              = rewrite index 0 pre ++ marker k ++ rewrite index 0 s))
  ∧ named (lit "select * from t where c = $country and cc = $country_code")
      (<[lit "country" := JsString (lit "US")]>
         {[lit "country_code" := JsString (lit "US1")]})
    = Normal
        {| preparedQuery := lit "select * from t where c = $1 and cc = $2";
           params := [JsString (lit "US"); JsString (lit "US1")] |}.
Proof.
  split; [|split; [|split]].
  - intros name repl pre c s Hname Hc.
    destruct (is_identifier_inv name Hname) as (_ & _ & _ & _ & Hall).
    rewrite replaceAll_app_dollar by (done || lia). f_equal.
    rewrite replaceAll_no_match.
    + rewrite replaceAll_words by done. do 2 f_equal.
      apply replaceAll_other. apply N.eqb_neq. by apply is_word_not_dollar.
    + unfold matches_at. rewrite starts_with_app, drop_app_length. simpl.
      by rewrite Hc.
  - intros name repl pre s Hname Hs.
    destruct (is_identifier_inv name Hname) as (_ & _ & _ & _ & Hall).
    rewrite replaceAll_app_dollar by (done || lia). f_equal.
    by apply replaceAll_match.
  - intros q args a b Ha Hb Hab Hs Hc.
    apply new_Set_elem_of, list_elem_of_lookup in Ha as [i Hi].
    apply new_Set_elem_of, list_elem_of_lookup in Hb as [j Hj].
    pose proof (new_Set_NoDup (matchAll q)) as Hnd.
    destruct (named_returns q args Hs Hc) as (values & Hv & Hr).
    destruct (Forall2_lookup_l _ _ _ _ _ Hv Hi) as (va & Hva & Hga).
    destruct (Forall2_lookup_l _ _ _ _ _ Hv Hj) as (vb & Hvb & Hgb).
    eexists _, (index_from (new_Set (matchAll q)) 1), i, j.
    split; [exact Hr|]. simpl.
    split; [intros ->; congruence|].
    split; [by apply index_from_lookup|].
    split; [by apply index_from_lookup|].
    split; [by rewrite Hva, Hga|].
    split; [by rewrite Hvb, Hgb|].
    split; [done|].
    intros n k pre s Hk Hn Hlook.
    rewrite rewrite_app_dollar by lia. f_equal. by apply rewrite_token.
  - vm_compute. reflexivity.
Qed.

Lemma named_boundary_aware_witness :
  ∃ r index i j,
    named (lit "select * from t where c = $country and cc = $country_code")
      (<[lit "country" := JsString (lit "US")]>
         {[lit "country_code" := JsString (lit "US1")]})
    = Normal r
    ∧ i ≠ j
    ∧ index (lit "country") = Some (S i)
    ∧ index (lit "country_code") = Some (S j)
    ∧ Normal <$> params r !! i
      = Some (convert
                (get (<[lit "country" := JsString (lit "US")]>
                        {[lit "country_code" := JsString (lit "US1")]})
                   (lit "country")))
    ∧ Normal <$> params r !! j
      = Some (convert
                (get (<[lit "country" := JsString (lit "US")]>
                        {[lit "country_code" := JsString (lit "US1")]})
                   (lit "country_code")))
    ∧ preparedQuery r
      = trim (rewrite index 0
          (lit "select * from t where c = $country and cc = $country_code"))
    ∧ (∀ n k pre s,
         index n = Some k → is_identifier n = true → lookahead s = true →
         rewrite index 0 (pre ++ dollar :: n ++ s)
         = rewrite index 0 pre ++ marker k ++ rewrite index 0 s).
Proof.
  apply (proj1 (proj2 (proj2 named_boundary_aware))
           (lit "select * from t where c = $country and cc = $country_code")
           (<[lit "country" := JsString (lit "US")]>
              {[lit "country_code" := JsString (lit "US1")]})
           (lit "country") (lit "country_code")).
  - apply list_elem_of_In. vm_compute. auto.
  - apply list_elem_of_In. vm_compute. auto.
  - vm_compute. discriminate.
  - apply Forall_forall. intros n Hn. apply list_elem_of_In in Hn.
    vm_compute in Hn. unfold supplied.
    destruct Hn as [<-|[<-|[]]]; vm_compute; discriminate.
  - apply Forall_forall. intros n Hn. apply list_elem_of_In in Hn.
    vm_compute in Hn. unfold converts.
    destruct Hn as [<-|[<-|[]]]; eexists; vm_compute; reflexivity.
Defined.

(** C6, as the code has it: for a supplied argument, the parameter at the
    position of its name is [null] for [null], the number itself for a
    number, the ISO-8601 string for a date, the array itself for an array,
    and the [toString()] text for any other value; this where every
    conversion gives a value, that is, no date is invalid and no
    [toString()] throws. *)
Theorem named_converts_values (q : jsstring) (args : NamedArgs) (i : nat)
    (name : jsstring) :
  Forall (supplied args) (matchAll q) →
  Forall (converts args) (matchAll q) →
  new_Set (matchAll q) !! i = Some name →
  ∃ r, named q args = Normal r
    ∧ (get args name = JsNull → params r !! i = Some JsNull)
    ∧ (∀ x, get args name = JsNumber x → params r !! i = Some (JsNumber x))
    ∧ (∀ iso, get args name = JsDate iso →
         params r !! i = Some (JsString iso))
    ∧ (∀ elems, get args name = JsArray elems →
         params r !! i = Some (JsArray elems))
    ∧ (∀ s, get args name = JsString s → params r !! i = Some (JsString s))
    ∧ (∀ b, get args name = JsBoolean b →
         params r !! i
         = Some (JsString (lit (if b then "true" else "false"))))
    ∧ (∀ str, get args name = JsObject str →
         params r !! i = Some (JsString str)).
Proof.
  intros Hs Hc Hi. destruct (named_returns q args Hs Hc) as (values & Hv & Hr).
  destruct (Forall2_lookup_l _ _ _ _ _ Hv Hi) as (param & Hpar & Hp).
  eexists. split; [exact Hr|]. simpl. rewrite Hpar.
  repeat split; intros;
    match goal with H : get _ _ = _ |- _ => rewrite H in Hp end;
    by injection Hp as <-.
Qed.

Lemma named_converts_values_witness :
  ∃ r, named (lit "select * from t where a = $a and b = any($b)")
         (<[lit "a" := JsNumber 7%float]> {[lit "b" := JsArray [JsNumber 1%float]]})
       = Normal r
    ∧ params r !! 0%nat = Some (JsNumber 7%float).
Proof.
  destruct (named_converts_values
              (lit "select * from t where a = $a and b = any($b)")
              (<[lit "a" := JsNumber 7%float]>
                 {[lit "b" := JsArray [JsNumber 1%float]]})
              0%nat (lit "a")) as (r & Hr & _ & Hnum & _).
  - apply Forall_forall. intros n Hn. apply list_elem_of_In in Hn.
    vm_compute in Hn. unfold supplied.
    destruct Hn as [<-|[<-|[]]]; vm_compute; discriminate.
  - apply Forall_forall. intros n Hn. apply list_elem_of_In in Hn.
    vm_compute in Hn. unfold converts.
    destruct Hn as [<-|[<-|[]]]; eexists; vm_compute; reflexivity.
  - vm_compute. reflexivity.
  - exists r. split; [exact Hr|]. apply Hnum. vm_compute. reflexivity.
Defined.

(** C6 as it is stated fails for a number: the parameter is the number, not
    a text. *)
Lemma named_number_not_text :
  ∃ r, named (lit "select * from t where id = $id")
         {[lit "id" := JsNumber 300%float]}
       = Normal r
    ∧ params r = [JsNumber 300%float]
    ∧ ¬ ∃ text, params r = [JsString text].
Proof.
  eexists. split; [vm_compute; reflexivity|]. simpl.
  split; [done|]. by intros [text [=]].
Qed.

(** C9, as the code has it: every parameter of a compiled query is
    [null], a number, a string, an array of numbers, an array of strings,
    or else the array supplied for a name of the template, as it is; so
    when every array supplied for a name is an array of numbers or an array
    of strings, every parameter has one of the five shapes. *)
Theorem named_params_shapes (q : jsstring) (args : NamedArgs)
    (r : NamedQueryResult) :
  named q args = Normal r →
  Forall (λ v, is_ParamType v = true
               ∨ ∃ n elems, n ∈ matchAll q ∧ get args n = JsArray elems
                            ∧ v = JsArray elems) (params r)
  ∧ ((∀ n elems, n ∈ matchAll q → get args n = JsArray elems →
        forallb is_number elems || forallb is_string elems = true) →
     Forall (λ v, is_ParamType v = true) (params r)).
Proof.
  intros Hr. destruct (named_Normal_inv q args r Hr) as (Hs & _ & Hv).
  rewrite Forall_forall in Hs. split.
  - apply Forall_lookup. intros i v Hi.
    destruct (Forall2_lookup_r _ _ _ _ _ Hv Hi) as (n & Hn & Hc).
    assert (n ∈ matchAll q) as Hin.
    { apply new_Set_elem_of_1, list_elem_of_lookup. eauto. }
    specialize (Hs n Hin). unfold supplied in Hs.
    destruct (get args n) as [| |x|s|b|iso|elems|str| |e] eqn:Hg;
      simpl in Hc; try done; injection Hc as <-; try by left.
    right. by exists n, elems.
  - intros Harr. apply Forall_lookup. intros i v Hi.
    destruct (Forall2_lookup_r _ _ _ _ _ Hv Hi) as (n & Hn & Hc).
    assert (n ∈ matchAll q) as Hin.
    { apply new_Set_elem_of_1, list_elem_of_lookup. eauto. }
    specialize (Hs n Hin). unfold supplied in Hs. specialize (Harr n).
    destruct (get args n) as [| |x|s|b|iso|elems|str| |e];
      simpl in Hc; try done; injection Hc as <-; try done.
    by apply Harr.
Qed.

Lemma named_params_shapes_witness :
  Forall (λ v, is_ParamType v = true)
    [JsArray [JsNumber 10%float; JsNumber 20%float]; JsString (lit "user")].
Proof.
  refine (proj2 (named_params_shapes
            (lit "select * from users where id = any($ids) and role = $role")
            (<[lit "ids" := JsArray [JsNumber 10%float; JsNumber 20%float]]>
               {[lit "role" := JsString (lit "user")]})
            {| preparedQuery :=
                 lit "select * from users where id = any($1) and role = $2";
               params := [JsArray [JsNumber 10%float; JsNumber 20%float];
                          JsString (lit "user")] |} _) _).
  - vm_compute. reflexivity.
  - intros n elems Hn. apply list_elem_of_In in Hn. vm_compute in Hn.
    destruct Hn as [<-|[<-|[]]]; vm_compute; intros [= <-]; reflexivity.
Defined.

(** C9 as it is stated fails: an array is passed through whatever its
    elements are, here an array of a number and a string. *)
Lemma named_mixed_array_param :
  ∃ r, named (lit "select * from users where id = any($ids)")
         {[lit "ids" := JsArray [JsNumber 10%float; JsString (lit "x")]]}
       = Normal r
    ∧ params r = [JsArray [JsNumber 10%float; JsString (lit "x")]]
    ∧ ¬ Forall (λ v, is_ParamType v = true) (params r).
Proof.
  eexists. split; [vm_compute; reflexivity|]. simpl.
  split; [done|]. intros H. apply Forall_cons in H as [H _]. discriminate.
Qed.

(** C10: every recorded name is an identifier; a [$] that no identifier
    start follows records no name; each replacement pass copies such a
    [$], and hence every [$<index>] emitted before, unchanged; and in the
    compiled text such a [$] stands unchanged between the rewritten text
    before it and the rewritten text after it. *)
Theorem named_other_dollars_untouched :
  (∀ q, Forall (λ n, is_identifier n = true) (matchAll q))
  ∧ (∀ pre s,
       head_is is_ident_start s = false →
       matchAll (pre ++ dollar :: s) = matchAll pre ++ matchAll s)
  ∧ (∀ name repl pre s,
       is_identifier name = true → head_is is_ident_start s = false →
       replaceAll name repl 0 (pre ++ dollar :: s)
       = replaceAll name repl 0 pre ++ dollar :: replaceAll name repl 0 s)
  ∧ (∀ name repl pre i s,
       is_identifier name = true →
       replaceAll name repl 0 (pre ++ marker i ++ s)
       = replaceAll name repl 0 pre ++ marker i ++ replaceAll name repl 0 s)
  ∧ (∀ q args r,
       named q args = Normal r →
       ∃ index,
         preparedQuery r = trim (rewrite index 0 q)
         ∧ ∀ pre s,
             q = pre ++ dollar :: s → head_is is_ident_start s = false →
             rewrite index 0 q
             = rewrite index 0 pre ++ dollar :: rewrite index 0 s).
Proof.
  split; [apply matchAll_identifiers|]. split; [|split; [|split]].
  - intros pre s Hs. rewrite matchAll_app_dollar. simpl. by rewrite Hs.
  - intros name repl pre s Hname Hs.
    destruct (is_identifier_inv name Hname) as (_ & _ & _ & _ & Hall).
    rewrite replaceAll_app_dollar by (done || lia). f_equal.
    apply replaceAll_no_match. by apply matches_at_head.
  - intros name repl pre i s Hname.
    destruct (is_identifier_inv name Hname) as (_ & _ & _ & _ & Hall).
    change (pre ++ marker i ++ s) with (pre ++ dollar :: (decimal i ++ s)).
    rewrite replaceAll_app_dollar by (done || lia). f_equal.
    by apply (replaceAll_marker name repl i s).
  - intros q args r Hr. destruct (named_Normal_inv q args r Hr) as (_ & Ht & _).
    eexists. split; [exact Ht|]. intros pre s -> Hs'.
    rewrite rewrite_app_dollar by lia. f_equal.
    apply rewrite_plain. by rewrite Hs', andb_false_r.
Qed.

Lemma named_other_dollars_untouched_witness :
  ∃ index,
    lit "select $1, $1, $ from t where p = '$ ' and q = $2 or r = $"
    = trim (rewrite index 0
        (lit " select $1, $a, $ from t where p = '$ ' and q = $b or r = $ "))
    ∧ ∀ pre s,
        lit " select $1, $a, $ from t where p = '$ ' and q = $b or r = $ "
        = pre ++ dollar :: s →
        head_is is_ident_start s = false →
        rewrite index 0
          (lit " select $1, $a, $ from t where p = '$ ' and q = $b or r = $ ")
        = rewrite index 0 pre ++ dollar :: rewrite index 0 s.
Proof.
  apply (proj2 (proj2 (proj2 (proj2 named_other_dollars_untouched)))
           (lit " select $1, $a, $ from t where p = '$ ' and q = $b or r = $ ")
           (<[lit "a" := JsNull]> {[lit "b" := JsNull]})
           {| preparedQuery :=
                lit "select $1, $1, $ from t where p = '$ ' and q = $2 or r = $";
              params := [JsNull; JsNull] |}).
  vm_compute. reflexivity.
Defined.

(** ** The earlier copy

    The copy of [named] in src/src/database.ts differs from the one above
    in two places. *)

(** It replaces [$country] inside [$country_code]. *)
Remark legacy_cross_substitution (Number_toString : float → jsstring) :
  Legacy.named Number_toString
    (lit "select * from t where c = $country and cc = $country_code")
    (<[lit "country" := JsString (lit "US")]>
       {[lit "country_code" := JsString (lit "US1")]})
  = Normal
      {| preparedQuery := lit "select * from t where c = $1 and cc = $1_code";
         params := [JsString (lit "US"); JsString (lit "US1")] |}.
Proof. vm_compute. reflexivity. Qed.

(** It converts a number to its text. *)
Remark legacy_number_as_text (Number_toString : float → jsstring) :
  Legacy.named Number_toString (lit "select * from t where id = $id")
    {[lit "id" := JsNumber 300%float]}
  = Normal
      {| preparedQuery := lit "select * from t where id = $1";
         params := [JsString (Number_toString 300%float)] |}.
Proof. vm_compute. reflexivity. Qed.

(** ** Properties of the orchestrator *)

Section Orchestrator.

Context (driver : Driver).

Implicit Types (callback : Work) (w : World).

Local Ltac step IH :=
  match goal with
  | |- context [run _ (?k ?c) ?w'] => by destruct (IH c w') as [-> ->]
  end.

(** The callback neither checks out nor releases the connection. *)
Lemma run_connection callback w :
  checked_out (run driver callback w).1 = checked_out w
  ∧ released (run driver callback w).1 = released w.
Proof.
  revert w. induction callback as [|e|text values k IH|q args k IH];
    intros w; simpl; try done.
  - unfold Transaction.query, client_query.
    destruct (server driver (sent w) _); step IH.
  - unfold Transaction.namedQuery, client_query, throw.
    destruct (named q args) as [r|e]; [|step IH].
    destruct (server driver (sent w) _); step IH.
Qed.

(** The transaction once [begin] has succeeded. *)
Lemma transaction_begun callback w w0 w1 result :
  pool_connect driver w = (w0, Normal tt) →
  client_query driver (lit "begin") [] w0 = (w1, Normal result) →
  transaction driver callback w
  = match run driver callback w1 with
    | (w2, Normal _) =>
        let '(w3, _) := Transaction.commit driver w2 in
        ((client_release w3).1, Normal tt)
    | (w2, Throw err) =>
        let '(w3, _) := Transaction.rollback driver w2 in
        ((client_release w3).1, Throw err)
    end.
Proof.
  intros Hconnect Hbegin.
  unfold transaction, mbind, Async_bind, bind, try_catch_finally.
  rewrite Hconnect, Hbegin.
  destruct (run driver callback w1) as [w2 [[]|err]].
  - unfold Transaction.commit, not_awaited.
    by destruct (client_query driver (lit "commit") [] w2) as [w3 [?|?]].
  - unfold Transaction.rollback, not_awaited, throw.
    by destruct (client_query driver (lit "rollback") [] w2) as [w3 [?|?]].
Qed.

(** When the callback completes normally, [commit] is sent and the
    transaction completes normally, whatever becomes of the commit. *)
Lemma transaction_commit_sent callback w w0 w1 w2 result :
  pool_connect driver w = (w0, Normal tt) →
  client_query driver (lit "begin") [] w0 = (w1, Normal result) →
  run driver callback w1 = (w2, Normal tt) →
  ∃ w3, transaction driver callback w = (w3, Normal tt)
    ∧ sent w3 = sent w2 ++ [commit_stmt]
    ∧ released w3 = S (released w).
Proof.
  intros Hconnect Hbegin Hrun.
  rewrite (transaction_begun callback w w0 w1 result) by done.
  pose proof (run_connection callback w1) as [_ Hrel].
  rewrite Hrun in *. simpl in Hrel.
  unfold pool_connect in Hconnect. unfold client_query in Hbegin.
  destruct (connect_error driver); [done|]. injection Hconnect as <-.
  simpl in Hbegin.
  destruct (server driver (sent w) _); [|done]. injection Hbegin as <- _.
  simpl in Hrel.
  unfold Transaction.commit, not_awaited, client_query.
  destruct (server driver (sent w2) _); simpl; eexists;
    (split; [done|]); simpl; by rewrite Hrel.
Qed.

(** Once [begin] has succeeded the connection is released exactly once,
    however the callback, the commit and the rollback end. *)
Lemma transaction_released_once callback w w0 w1 result :
  pool_connect driver w = (w0, Normal tt) →
  client_query driver (lit "begin") [] w0 = (w1, Normal result) →
  released (transaction driver callback w).1 = S (released w)
  ∧ checked_out (transaction driver callback w).1 = S (checked_out w).
Proof.
  intros Hconnect Hbegin.
  rewrite (transaction_begun callback w w0 w1 result) by done.
  pose proof (run_connection callback w1) as [Hout Hrel].
  unfold pool_connect in Hconnect. unfold client_query in Hbegin.
  destruct (connect_error driver); [done|]. injection Hconnect as <-.
  simpl in Hbegin.
  destruct (server driver (sent w) _); [|done]. injection Hbegin as <- _.
  simpl in Hout, Hrel.
  destruct (run driver callback _) as [w2 [[]|err]]; simpl in *.
  - unfold Transaction.commit, not_awaited, client_query.
    destruct (server driver (sent w2) _); simpl; by rewrite Hrel, Hout.
  - unfold Transaction.rollback, not_awaited, client_query.
    destruct (server driver (sent w2) _); simpl; by rewrite Hrel, Hout.
Qed.

End Orchestrator.

(** C7: when the callback fails with [err], the orchestrator sends
    [rollback] and then fails with this same [err]; if the rollback is
    rejected, the rejection is left unhandled and [err] is still what the
    caller gets. *)
Theorem transaction_rolls_back_and_rethrows (driver : Driver)
    (callback : Work) (w w0 w1 w2 : World) (result : QueryResult)
    (err : JsError) :
  pool_connect driver w = (w0, Normal tt) →
  client_query driver (lit "begin") [] w0 = (w1, Normal result) →
  run driver callback w1 = (w2, Throw err) →
  ∃ w3,
    transaction driver callback w = (w3, Throw err)
    ∧ sent w3 = sent w2 ++ [rollback_stmt]
    ∧ (∀ e, server driver (sent w2) rollback_stmt = Rejected e →
         unhandled w3 = unhandled w2 ++ [e]).
Proof.
  intros Hconnect Hbegin Hrun.
  rewrite (transaction_begun driver callback w w0 w1 result) by done.
  rewrite Hrun. unfold Transaction.rollback, not_awaited, client_query.
  fold rollback_stmt.
  destruct (server driver (sent w2) rollback_stmt) as [res|e'] eqn:Hserver;
    simpl; eexists; (split; [done|]); simpl; (split; [done|]).
  - by intros e.
  - by intros e [= ->].
Qed.

Lemma transaction_rolls_back_and_rethrows_witness :
  ∃ w3,
    transaction (rejecting (lit "rollback") 57) two_inserts_then_fail start
    = (w3, Throw (Error (lit "boom")))
    ∧ sent w3
      = [begin_stmt;
         {| text := lit "insert into t values (1)"; values := [] |};
         {| text := lit "insert into t values (2)"; values := [] |}]
        ++ [rollback_stmt]
    ∧ (∀ e,
         server (rejecting (lit "rollback") 57)
           [begin_stmt;
            {| text := lit "insert into t values (1)"; values := [] |};
            {| text := lit "insert into t values (2)"; values := [] |}]
           rollback_stmt = Rejected e →
         unhandled w3 = [] ++ [e]).
Proof.
  apply (transaction_rolls_back_and_rethrows
           (rejecting (lit "rollback") 57) two_inserts_then_fail start
           {| checked_out := 1; sent := []; released := 0; unhandled := [] |}
           {| checked_out := 1; sent := [begin_stmt]; released := 0;
              unhandled := [] |}
           {| checked_out := 1;
              sent := [begin_stmt;
                       {| text := lit "insert into t values (1)";
                          values := [] |};
                       {| text := lit "insert into t values (2)";
                          values := [] |}];
              released := 0; unhandled := [] |}
           {| rowCount := 0; rows := [] |}
           (Error (lit "boom")));
    vm_compute; reflexivity.
Defined.

(** C1 at a commit that the server rejects: the commit is sent, but the
    transaction completes normally and the rejection is left unhandled
    instead of reaching the caller. *)
Theorem transaction_commit_failure_not_propagated :
  transaction (rejecting (lit "commit") 40001) Return start
  = ({| checked_out := 1; sent := [begin_stmt; commit_stmt]; released := 1;
        unhandled := [DatabaseError 40001] |},
     Normal tt).
Proof. vm_compute. reflexivity. Qed.

(** C8 at a [begin] that the server rejects: the connection has been
    checked out and the transaction fails without releasing it. *)
Theorem transaction_begin_failure_not_released :
  transaction (rejecting (lit "begin") 57) Return start
  = ({| checked_out := 1; sent := [begin_stmt]; released := 0;
        unhandled := [] |},
     Throw (DatabaseError 57)).
Proof. vm_compute. reflexivity. Qed.

(** * Further properties *)

(** ** Trimming *)

Section Trim.

Implicit Types (c : N) (s t : jsstring) (f : N → bool).

Lemma is_space_not_word c : is_space c = true → is_word c = false.
Proof.
  unfold is_space, is_word, is_lower, is_upper, is_digit, underscore.
  intros H. apply not_true_is_false. intros Hw.
  rewrite !orb_true_iff in H. rewrite !andb_true_iff in H.
  rewrite !N.eqb_eq in H. rewrite !N.leb_le in H.
  rewrite !orb_true_iff in Hw. rewrite !andb_true_iff in Hw.
  rewrite !N.eqb_eq in Hw. rewrite !N.leb_le in Hw. lia.
Qed.

Lemma is_space_not_dollar c : is_space c = true → (c =? dollar) = false.
Proof.
  unfold is_space, dollar. intros H. apply N.eqb_neq. intros ->.
  vm_compute in H. discriminate.
Qed.

Lemma is_space_not_ident_start c :
  is_space c = true → is_ident_start c = false.
Proof.
  intros H%is_space_not_word. destruct (is_ident_start c) eqn:E; [|done].
  apply is_ident_start_word in E. congruence.
Qed.

Lemma forallb_reverse f s : forallb f (reverse s) = forallb f s.
Proof.
  induction s as [|c s IH]; [done|].
  rewrite reverse_cons, forallb_app, IH. simpl.
  by rewrite andb_true_r, andb_comm.
Qed.

Lemma drop_while_id f s : head_is f s = false → drop_while f s = s.
Proof. destruct s as [|c s]; simpl; [done|]. by intros ->. Qed.

(** What [trim] takes off at the end is white space. *)
Lemma trim_tail s :
  ∃ tail, drop_while is_space s = trim s ++ tail
          ∧ forallb is_space tail = true.
Proof.
  unfold trim. set (a := drop_while is_space s).
  exists (reverse (take_while is_space (reverse a))). split.
  - rewrite <- reverse_app, take_drop_while. by rewrite reverse_involutive.
  - by rewrite forallb_reverse, take_while_all.
Qed.

Lemma trim_head s : head_is is_space (trim s) = false.
Proof.
  destruct (trim_tail s) as (tail & Heq & _).
  pose proof (drop_while_head is_space s) as Hh. rewrite Heq in Hh.
  by destruct (trim s).
Qed.

Lemma trim_last s : head_is is_space (reverse (trim s)) = false.
Proof.
  unfold trim. rewrite reverse_involutive. apply drop_while_head.
Qed.

Lemma trim_trim s : trim (trim s) = trim s.
Proof.
  unfold trim at 1. rewrite (drop_while_id _ _ (trim_head s)).
  rewrite (drop_while_id _ _ (trim_last s)). apply reverse_involutive.
Qed.

Lemma take_while_app_nonword s t :
  head_is is_word t = false →
  take_while is_word (s ++ t) = take_while is_word s.
Proof.
  intros Ht. induction s as [|c s IH]; simpl.
  - destruct t as [|d t]; simpl in *; [done | by rewrite Ht].
  - by rewrite IH.
Qed.

Lemma matchAll_app_spaces s tail :
  forallb is_space tail = true → matchAll (s ++ tail) = matchAll s.
Proof.
  intros Htail.
  assert (head_is is_word tail = false ∧ head_is is_ident_start tail = false)
    as [Hw Hi].
  { destruct tail as [|d tail]; simpl in *; [done|].
    apply andb_true_iff in Htail as [Hd _].
    by rewrite is_space_not_word, is_space_not_ident_start. }
  induction s as [|c s IH]; simpl.
  - clear Hw Hi. induction tail as [|d tail IH]; simpl in *; [done|].
    apply andb_true_iff in Htail as [Hd Htail].
    by rewrite (is_space_not_dollar d Hd), IH.
  - rewrite take_while_app_nonword, IH by done.
    replace (head_is is_ident_start (s ++ tail))
      with (head_is is_ident_start s); [done|].
    by destruct s.
Qed.

Lemma matchAll_drop_spaces s : matchAll (drop_while is_space s) = matchAll s.
Proof.
  induction s as [|c s IH]; simpl; [done|].
  destruct (is_space c) eqn:Hc; [|done].
  by rewrite IH, (is_space_not_dollar c Hc).
Qed.

Lemma matchAll_trim s : matchAll (trim s) = matchAll s.
Proof.
  destruct (trim_tail s) as (tail & Heq & Htail).
  rewrite <- (matchAll_drop_spaces s), Heq. symmetry.
  by apply matchAll_app_spaces.
Qed.

End Trim.

(** ** The names left in a rewritten template *)

Section NamesLeft.

Implicit Types (c : N) (s w t : jsstring) (σ : jsstring → option nat).

Lemma matchAll_token w t :
  is_identifier w = true → lookahead t = true →
  matchAll (dollar :: w ++ t) = w :: matchAll t.
Proof.
  intros Hw Ht.
  destruct (is_identifier_inv w Hw) as (a & w' & -> & Ha & Hall).
  assert (take_while is_word ((a :: w') ++ t) = a :: w') as Htw.
  { apply take_while_app_all; [done|].
    destruct t as [|d t]; simpl in *; [done|]. by destruct (is_word d). }
  cbn [matchAll]. rewrite N.eqb_refl. cbn [andb].
  change (head_is is_ident_start ((a :: w') ++ t)) with (is_ident_start a).
  by rewrite Ha, Htw, matchAll_words.
Qed.

Lemma matchAll_marker i s : matchAll (marker i ++ s) = matchAll s.
Proof.
  unfold marker. destruct (decimal_digits i) as (d & ds & -> & Hds).
  change (matchAll (dollar :: (d :: ds) ++ s) = matchAll s).
  cbn [matchAll]. rewrite N.eqb_refl. cbn [andb].
  change (head_is is_ident_start ((d :: ds) ++ s)) with (is_ident_start d).
  pose proof Hds as Hd. simpl in Hd. apply andb_true_iff in Hd as [Hd _].
  rewrite (is_digit_not_ident_start d Hd).
  apply matchAll_words. by apply forallb_digit_word.
Qed.

(** The rewrite takes away the indexed names and keeps the others. *)
Lemma matchAll_rewrite σ s :
  matchAll (rewrite σ 0 s) = filter (λ n, σ n = None) (matchAll s).
Proof.
  remember (length s) as n eqn:Hn. revert s Hn.
  induction n as [n IH] using lt_wf_ind. intros [|c rest] Hn; [done|].
  simpl in Hn.
  destruct ((c =? dollar) && head_is is_ident_start rest) eqn:Hc.
  - apply andb_true_iff in Hc as [->%N.eqb_eq Hstart].
    pose proof (take_while_identifier rest Hstart) as Hw.
    pose proof (lookahead_drop_while rest) as Ht.
    pose proof (drop_while_length is_word rest) as Hlen.
    rewrite <- (take_drop_while is_word rest).
    set (w := take_while is_word rest) in *.
    set (t := drop_while is_word rest) in *.
    assert (matchAll (rewrite σ 0 t) = filter (λ n, σ n = None) (matchAll t))
      as IHt by (apply (IH (length t)); [lia | done]).
    rewrite (matchAll_token w t) by done. rewrite filter_cons.
    destruct (σ w) as [j|] eqn:Hj.
    + rewrite (rewrite_token σ w t j) by done.
      rewrite matchAll_marker, IHt. by rewrite decide_False by congruence.
    + rewrite (rewrite_unindexed σ w t) by done.
      rewrite matchAll_token, IHt; [by rewrite decide_True by done | done |].
      by rewrite (lookahead_head _ t (rewrite_head σ t)).
  - rewrite rewrite_plain by done.
    assert (matchAll (rewrite σ 0 rest)
            = filter (λ n, σ n = None) (matchAll rest))
      as IHr by (apply (IH (length rest)); [lia | done]).
    cbn [matchAll]. rewrite Hc.
    by rewrite (head_is_head _ _ rest (rewrite_head σ rest)), Hc.
Qed.

End NamesLeft.

Section MoreOnNamed.

Implicit Types (q : jsstring) (args : NamedArgs).

Lemma for_of_ext {S A} (body body' : S → A → Completion S) (l : list A)
    (st : S) :
  (∀ st' x, x ∈ l → body st' x = body' st' x) →
  for_of body l st = for_of body' l st.
Proof.
  revert st. induction l as [|x l IH]; intros st Hext; simpl; [done|].
  rewrite <- (Hext st x) by (apply elem_of_cons; by left).
  destruct (body st x); [|done].
  apply IH. intros st' y Hy. apply Hext. apply elem_of_cons. by right.
Qed.

Lemma filter_none {A} (P : A → Prop) `{∀ x, Decision (P x)} (l : list A) :
  (∀ x, x ∈ l → ¬ P x) → filter P l = [].
Proof.
  induction l as [|x l IH]; intros Hl; [done|].
  rewrite filter_cons, decide_False by (apply Hl, elem_of_cons; by left).
  apply IH. intros y Hy. apply Hl, elem_of_cons. by right.
Qed.

(** Once every distinct name has its index, no name is left. *)
Lemma matchAll_compiled q :
  matchAll (trim (rewrite (index_from (new_Set (matchAll q)) 1) 0 q)) = [].
Proof.
  rewrite matchAll_trim, matchAll_rewrite.
  apply filter_none. intros n Hn Hnone.
  apply index_from_None in Hnone. by apply Hnone, new_Set_elem_of.
Qed.

End MoreOnNamed.

(** X1: [named] fails in three ways only, each at the first name of the
    template, in order of appearance, at which something goes wrong (every
    name before it is supplied and converted): the lookup of the name gives
    [undefined], and the error is a [MissingArgumentError] with this name;
    or its value is an invalid date, and the error is the [RangeError] of
    [toISOString()]; or its value is an object whose [toString()] throws,
    and the error is the one thrown there. *)
Theorem named_failure_modes (q : jsstring) (args : NamedArgs) (e : JsError) :
  named q args = Throw e →
  ∃ pre name post,
    matchAll q = pre ++ name :: post
    ∧ occurs_in q name
    ∧ Forall (supplied args) pre ∧ Forall (converts args) pre
    ∧ (get args name = JsUndefined ∧ e = MissingArgumentError name
       ∨ get args name = JsInvalidDate
         ∧ e = RangeError (lit "Invalid time value")
       ∨ get args name = JsThrowing e).
Proof.
  intros He.
  destruct (first_failing args (matchAll q))
    as [[Hs Hc]|(pre & name & post & Hq & Hpre & Hcpre & Hname)].
  - destruct (named_returns q args Hs Hc) as (values & _ & Hr). congruence.
  - exists pre, name, post. split; [done|]. split.
    { apply occurs_in_matchAll. rewrite Hq.
      apply elem_of_app. right. apply elem_of_cons. by left. }
    split; [done|]. split; [done|].
    destruct Hname as [Hname|[e' Hname]].
    + rewrite (named_throws_first q args pre name post
                 (MissingArgumentError name)) in He by auto.
      injection He as <-. by left.
    + rewrite (named_throws_first q args pre name post e') in He by auto.
      injection He as <-. right.
      destruct (get args name); simpl in Hname; try done;
        injection Hname as <-; auto.
Qed.

Lemma named_failure_modes_witness :
  ∃ pre name post,
    matchAll (lit "select $a, $d, $b") = pre ++ name :: post
    ∧ occurs_in (lit "select $a, $d, $b") name
    ∧ Forall (supplied (<[lit "a" := JsNull]> {[lit "d" := JsInvalidDate]}))
        pre
    ∧ Forall (converts (<[lit "a" := JsNull]> {[lit "d" := JsInvalidDate]}))
        pre
    ∧ (get (<[lit "a" := JsNull]> {[lit "d" := JsInvalidDate]}) name
       = JsUndefined
       ∧ RangeError (lit "Invalid time value") = MissingArgumentError name
       ∨ get (<[lit "a" := JsNull]> {[lit "d" := JsInvalidDate]}) name
         = JsInvalidDate
         ∧ RangeError (lit "Invalid time value")
           = RangeError (lit "Invalid time value")
       ∨ get (<[lit "a" := JsNull]> {[lit "d" := JsInvalidDate]}) name
         = JsThrowing (RangeError (lit "Invalid time value"))).
Proof.
  apply (named_failure_modes (lit "select $a, $d, $b")
           (<[lit "a" := JsNull]> {[lit "d" := JsInvalidDate]})).
  vm_compute. reflexivity.
Defined.

(** X2: only the arguments the template refers to count: two argument
    objects that give the same value to every name of the template compile
    it to the same result, or fail with the same error. *)
Theorem named_reads_referenced_names_only (q : jsstring)
    (args args' : NamedArgs) :
  (∀ n, n ∈ matchAll q → get args n = get args' n) →
  named q args = named q args'.
Proof.
  intros Hsame. unfold named.
  rewrite (for_of_ext (loop_body args) (loop_body args')); [done|].
  intros st n Hn%new_Set_elem_of_1. unfold loop_body. by rewrite Hsame.
Qed.

Lemma named_reads_referenced_names_only_witness :
  named (lit "select * from entity where id = $id")
    {[lit "id" := JsNumber 3%float]}
  = named (lit "select * from entity where id = $id")
      (<[lit "id" := JsNumber 3%float]> {[lit "fullName" := JsNull]}).
Proof.
  apply named_reads_referenced_names_only.
  intros n Hn. apply list_elem_of_In in Hn. vm_compute in Hn.
  destruct Hn as [<-|[]]. vm_compute. reflexivity.
Defined.

(** X3: a compiled text holds no named placeholder any more. *)
Theorem named_leaves_no_placeholder (q : jsstring) (args : NamedArgs)
    (r : NamedQueryResult) :
  named q args = Normal r → matchAll (preparedQuery r) = [].
Proof.
  intros Hr. destruct (named_Normal_inv q args r Hr) as (_ & -> & _).
  apply matchAll_compiled.
Qed.

Lemma named_leaves_no_placeholder_witness :
  matchAll (lit "select * from t where a = $1 and b = any($2) and c = $1")
  = [].
Proof.
  apply (named_leaves_no_placeholder
           (lit " select * from t where a = $a and b = any($b) and c = $a ")
           (<[lit "a" := JsNull]> {[lit "b" := JsArray []]})
           {| preparedQuery :=
                lit "select * from t where a = $1 and b = any($2) and c = $1";
              params := [JsNull; JsArray []] |}).
  vm_compute. reflexivity.
Defined.

(** X4: compiling a compiled text again changes nothing: whatever the
    arguments, the result is the same text and no parameter. *)
Theorem named_compiled_text_is_fixed (q : jsstring) (args args' : NamedArgs)
    (r : NamedQueryResult) :
  named q args = Normal r →
  named (preparedQuery r) args'
  = Normal {| preparedQuery := preparedQuery r; params := [] |}.
Proof.
  intros Hr. destruct (named_Normal_inv q args r Hr) as (_ & -> & _).
  unfold named. rewrite matchAll_compiled. simpl.
  by rewrite trim_trim.
Qed.

Lemma named_compiled_text_is_fixed_witness :
  named (lit "select * from t where a = $1") ∅
  = Normal {| preparedQuery := lit "select * from t where a = $1";
              params := [] |}.
Proof.
  apply (named_compiled_text_is_fixed
           (lit "  select * from t where a = $a  ")
           {[lit "a" := JsNull]} ∅
           {| preparedQuery := lit "select * from t where a = $1";
              params := [JsNull] |}).
  vm_compute. reflexivity.
Defined.

(** X5: a compiled text neither begins nor ends with white space. *)
Theorem named_text_is_trimmed (q : jsstring) (args : NamedArgs)
    (r : NamedQueryResult) :
  named q args = Normal r →
  head_is is_space (preparedQuery r) = false
  ∧ head_is is_space (reverse (preparedQuery r)) = false.
Proof.
  intros Hr. unfold named in Hr.
  destruct (for_of _ _ _) as [st|e]; [|done]. injection Hr as <-. simpl.
  split; [apply trim_head | apply trim_last].
Qed.

Lemma named_text_is_trimmed_witness :
  head_is is_space (lit "select $1") = false
  ∧ head_is is_space (reverse (lit "select $1")) = false.
Proof.
  apply (named_text_is_trimmed
           ([10; 9] ++ lit "  select $a " ++ [160; 13; 10])
           {[lit "a" := JsNull]}
           {| preparedQuery := lit "select $1"; params := [JsNull] |}).
  vm_compute. reflexivity.
Defined.

(** X6: the digits of the replacement text for an index read back as this
    index, so that two indices with the same replacement text are equal. *)
Theorem marker_reads_back (i j : nat) :
  head (marker i) = Some dollar
  ∧ read_decimal (tail (marker i)) = N.of_nat i
  ∧ (marker i = marker j → i = j).
Proof.
  split; [done|]. split; [apply decimal_value|].
  intros [= H]. apply (f_equal read_decimal) in H.
  rewrite !decimal_value in H. lia.
Qed.

Lemma marker_reads_back_witness : 12%nat = 12%nat.
Proof.
  apply (proj2 (proj2 (marker_reads_back 12 12))). vm_compute. reflexivity.
Defined.

(** ** The earlier copy of [named] *)

Section LegacyNamed.

Context (Number_toString : float → jsstring).

Implicit Types (c : N) (s w t p r name : jsstring) (args : NamedArgs).

(** The conversion of the earlier copy throws where the later one does:
    the two differ for a number only. *)
Lemma legacy_convert_spec v :
  Legacy.convert Number_toString v
  = match v with
    | JsNumber x => Normal (JsString (Number_toString x))
    | _ => convert v
    end.
Proof. by destruct v. Qed.

Lemma legacy_push_defined arr v param :
  v ≠ JsUndefined → Legacy.convert Number_toString v = Normal param →
  Legacy.push Number_toString arr v = Normal (arr ++ [param]).
Proof. destruct v; simpl; try done; by intros _ [= <-]. Qed.

Lemma legacy_push_throws arr v e :
  Legacy.convert Number_toString v = Throw e →
  Legacy.push Number_toString arr v = Throw e.
Proof. destruct v; simpl; try done; by intros [= <-]. Qed.

Lemma legacy_loop_body_supplied args st name param :
  supplied args name →
  Legacy.convert Number_toString (get args name) = Normal param →
  Legacy.loop_body Number_toString args st name
  = Normal
      {| query :=
           Legacy.replaceAll (dollar :: name) (marker (idx st)) 0 (query st);
         paramArray := paramArray st ++ [param];
         idx := S (idx st) |}.
Proof.
  unfold supplied, Legacy.loop_body. intros H Hc.
  rewrite (legacy_push_defined _ _ _ H Hc). revert H.
  by destruct (get args name).
Qed.

Lemma legacy_loop_body_throws args st name e :
  convert (get args name) = Throw e →
  Legacy.loop_body Number_toString args st name = Throw e.
Proof.
  unfold Legacy.loop_body. intros Hc.
  rewrite (legacy_push_throws _ _ e)
    by (rewrite legacy_convert_spec; by destruct (get args name)).
  apply convert_throws_defined in Hc. revert Hc. by destruct (get args name).
Qed.

Lemma legacy_values args names :
  Forall (converts args) names →
  ∃ values,
    Forall2 (λ n param,
               Legacy.convert Number_toString (get args n) = Normal param)
      names values.
Proof.
  induction 1 as [|n names [p Hp] _ [values IH]]; [by exists []|].
  destruct (Legacy.convert Number_toString (get args n)) as [p'|e] eqn:Hc.
  - exists (p' :: values). by constructor.
  - rewrite legacy_convert_spec in Hc. by destruct (get args n).
Qed.

Lemma legacy_for_of_supplied args names st values :
  Forall (supplied args) names →
  Forall2 (λ n param,
             Legacy.convert Number_toString (get args n) = Normal param)
    names values →
  ∃ text,
    for_of (Legacy.loop_body Number_toString args) names st
    = Normal
        {| query := text;
           paramArray := paramArray st ++ values;
           idx := idx st + length names |}.
Proof.
  intros Hs Hv. revert st Hs.
  induction Hv as [|n p names values Hp Hv IH]; intros st Hs; simpl.
  - exists (query st). rewrite app_nil_r, Nat.add_0_r. by destruct st.
  - apply Forall_cons in Hs as [Hn Hs].
    rewrite (legacy_loop_body_supplied _ _ _ p) by done.
    destruct (IH {| query := Legacy.replaceAll (dollar :: n)
                               (marker (idx st)) 0 (query st);
                    paramArray := paramArray st ++ [p];
                    idx := S (idx st) |} Hs) as [text ->].
    exists text. simpl. rewrite <- app_assoc. do 2 f_equal. lia.
Qed.

Lemma legacy_replaceAll_skip p r w s :
  Legacy.replaceAll p r (length w) (w ++ s) = Legacy.replaceAll p r 0 s.
Proof. induction w as [|c w IH]; simpl; [by destruct s | done]. Qed.

Lemma legacy_replaceAll_words name r w s :
  forallb is_word w = true →
  Legacy.replaceAll (dollar :: name) r 0 (w ++ s)
  = w ++ Legacy.replaceAll (dollar :: name) r 0 s.
Proof.
  induction w as [|c w IH]; [done|].
  intros [Hc Hw]%andb_true_iff. cbn [app Legacy.replaceAll starts_with].
  rewrite N.eqb_sym, (is_word_not_dollar c Hc). cbn [andb].
  by rewrite IH.
Qed.

Lemma legacy_replaceAll_dollar name r s :
  Legacy.replaceAll (dollar :: name) r 0 (dollar :: s)
  = if starts_with name s
    then r ++ Legacy.replaceAll (dollar :: name) r (length name) s
    else dollar :: Legacy.replaceAll (dollar :: name) r 0 s.
Proof. done. Qed.

Lemma legacy_replaceAll_other name r c s :
  c ≠ dollar →
  Legacy.replaceAll (dollar :: name) r 0 (c :: s)
  = c :: Legacy.replaceAll (dollar :: name) r 0 s.
Proof.
  intros H%N.eqb_neq. cbn [Legacy.replaceAll starts_with].
  by rewrite N.eqb_sym, H.
Qed.

Lemma starts_with_boundary p w t :
  forallb is_word p = true → lookahead t = true →
  starts_with p (w ++ t) = true → starts_with p w = true.
Proof.
  intros Hp Ht. revert w. induction p as [|a p IH]; intros w; [done|].
  simpl in Hp. apply andb_true_iff in Hp as [Ha Hp].
  destruct w as [|c w]; simpl.
  - destruct t as [|d t]; simpl in *; [done|].
    destruct (N.eqb_spec a d) as [->|]; [|done]. by rewrite Ha in Ht.
  - intros [-> H]%andb_true_iff. by rewrite (IH Hp w H).
Qed.

Lemma starts_with_head name s :
  is_identifier name = true → head_is is_ident_start s = false →
  starts_with name s = false.
Proof.
  intros (a & p' & -> & Ha & _)%is_identifier_inv Hs.
  destruct s as [|d s]; simpl in *; [done|].
  destruct (N.eqb_spec a d) as [->|]; [congruence | done].
Qed.

Lemma starts_with_refl p : starts_with p p = true.
Proof. induction p as [|a p IH]; simpl; [done|]. by rewrite N.eqb_refl. Qed.

(** Where no placeholder of the text has a name that begins with [name]
    and goes on, the plain replacement and the replacement with the
    lookahead are the same. *)
Lemma legacy_replaceAll_agrees name r s :
  is_identifier name = true →
  (∀ w, w ∈ matchAll s → starts_with name w = true → w = name) →
  Legacy.replaceAll (dollar :: name) r 0 s = replaceAll name r 0 s.
Proof.
  intros Hname.
  destruct (is_identifier_inv name Hname) as (_ & _ & _ & _ & Hnall).
  remember (length s) as n eqn:Hn. revert s Hn.
  induction n as [n IH] using lt_wf_ind. intros [|c rest] Hn Hpre; [done|].
  simpl in Hn.
  destruct ((c =? dollar) && head_is is_ident_start rest) eqn:Hc.
  - apply andb_true_iff in Hc as [->%N.eqb_eq Hstart].
    pose proof (take_while_identifier rest Hstart) as Hw.
    pose proof (lookahead_drop_while rest) as Ht.
    pose proof (drop_while_length is_word rest) as Hlen.
    revert Hpre. rewrite <- (take_drop_while is_word rest).
    set (w := take_while is_word rest) in *.
    set (t := drop_while is_word rest) in *. intros Hpre.
    destruct (is_identifier_inv w Hw) as (_ & _ & _ & _ & Hwall).
    rewrite (matchAll_token w t) in Hpre by done.
    assert (Legacy.replaceAll (dollar :: name) r 0 t = replaceAll name r 0 t)
      as IHt.
    { apply (IH (length t)); [lia | done |].
      intros w' Hw'. apply Hpre, elem_of_cons. by right. }
    rewrite legacy_replaceAll_dollar.
    destruct (decide (w = name)) as [->|Hne].
    + rewrite starts_with_app, legacy_replaceAll_skip, IHt.
      by rewrite replaceAll_match.
    + destruct (starts_with name (w ++ t)) eqn:Hsw.
      { exfalso. apply Hne, Hpre; [apply elem_of_cons; by left|].
        by apply (starts_with_boundary name w t). }
      rewrite legacy_replaceAll_words, IHt by done.
      rewrite replaceAll_no_match, replaceAll_words; try done.
      destruct (matches_at name (w ++ t)) eqn:Hm; [|done].
      apply matches_at_word in Hm; done.
  - assert (matchAll (c :: rest) = matchAll rest) as Hm
      by (cbn [matchAll]; by rewrite Hc).
    assert (Legacy.replaceAll (dollar :: name) r 0 rest
            = replaceAll name r 0 rest) as IHr.
    { apply (IH (length rest)); [lia | done |]. by rewrite <- Hm. }
    destruct (N.eqb_spec c dollar) as [->|Hne].
    + simpl in Hc. rewrite legacy_replaceAll_dollar.
      rewrite (starts_with_head name rest) by done.
      rewrite replaceAll_no_match, IHr; [done|].
      by apply matches_at_head.
    + by rewrite legacy_replaceAll_other, replaceAll_other, IHr.
Qed.

(** The names of the text after one pass were there before it. *)
Lemma matchAll_replaceAll name i s w :
  is_identifier name = true →
  w ∈ matchAll (replaceAll name (marker i) 0 s) → w ∈ matchAll s.
Proof.
  intros Hname.
  rewrite <- (rewrite_no_index (λ _, None) s) at 1 by done.
  rewrite (replaceAll_rewrite (λ _, None)
             (λ w, if decide (w = name) then Some i else None) name i);
    try done.
  - rewrite matchAll_rewrite. by intros [_ H]%list_elem_of_filter.
  - by rewrite decide_True.
  - intros w' Hw'. by rewrite decide_False.
Qed.

Lemma legacy_for_of_agrees q args todo st :
  (∀ a b, a ∈ matchAll q → b ∈ matchAll q →
     starts_with a b = true → b = a) →
  (∀ n, n ∈ matchAll q → is_number (get args n) = false) →
  (∀ n, n ∈ todo → n ∈ matchAll q) →
  (∀ w, w ∈ matchAll (query st) → w ∈ matchAll q) →
  for_of (Legacy.loop_body Number_toString args) todo st
  = for_of (loop_body args) todo st.
Proof.
  intros Hprefix Hnum. revert st.
  induction todo as [|n todo IH]; intros st Htodo Hst; [done|].
  assert (n ∈ matchAll q) as Hn by (apply Htodo, elem_of_cons; by left).
  assert (is_identifier n = true) as Hid.
  { pose proof (matchAll_identifiers q) as H.
    rewrite Forall_forall in H. by apply H. }
  assert (Legacy.loop_body Number_toString args st n = loop_body args st n)
    as Hbody.
  { unfold Legacy.loop_body, loop_body.
    rewrite legacy_replaceAll_agrees; [|done|].
    - specialize (Hnum n Hn). by destruct (get args n).
    - intros w Hw. by apply Hprefix, Hst. }
  simpl. rewrite Hbody. unfold loop_body.
  destruct (get args n) eqn:Hv; try done;
    (apply IH; [intros m Hm; apply Htodo, elem_of_cons; by right|];
     simpl; intros w Hw%matchAll_replaceAll; [by apply Hst | done]).
Qed.

End LegacyNamed.

(** X7: the earlier copy of [named] returns when every name of the
    template is supplied and can be converted, with one parameter for each
    distinct name, in order of first appearance, converted as in the later
    copy except that a number becomes its text; and it throws at the first
    name of the template at which something goes wrong:
    [MissingArgumentError] with this name where the lookup gives
    [undefined], and otherwise the error that the conversion of its value
    throws. *)
Theorem legacy_named_results (Number_toString : float → jsstring)
    (q : jsstring) (args : NamedArgs) :
  (Forall (supplied args) (matchAll q) →
   Forall (converts args) (matchAll q) →
   ∃ r, Legacy.named Number_toString q args = Normal r
     ∧ length (params r) = length (new_Set (matchAll q))
     ∧ ∀ i n, new_Set (matchAll q) !! i = Some n →
         Normal <$> params r !! i
         = Some match get args n with
                | JsNumber x => Normal (JsString (Number_toString x))
                | v => convert v
                end)
  ∧ (∀ pre name post e,
       matchAll q = pre ++ name :: post →
       Forall (supplied args) pre → Forall (converts args) pre →
       (get args name = JsUndefined ∧ e = MissingArgumentError name
        ∨ convert (get args name) = Throw e) →
       Legacy.named Number_toString q args = Throw e).
Proof.
  split.
  - intros Hs Hc. unfold Legacy.named.
    destruct (legacy_values Number_toString args (new_Set (matchAll q)))
      as [values Hv]; [by apply Forall_new_Set|].
    destruct (legacy_for_of_supplied Number_toString args
                (new_Set (matchAll q))
                {| query := q; paramArray := []; idx := 1 |} values)
      as [text ->]; [by apply Forall_new_Set | done |].
    eexists. split; [done|]. simpl.
    split; [symmetry; by apply Forall2_length in Hv|].
    intros i n Hi.
    destruct (Forall2_lookup_l _ _ _ _ _ Hv Hi) as (param & -> & Hp).
    simpl. rewrite <- Hp, legacy_convert_spec. by destruct (get args n).
  - intros pre name post e Hq Hpre Hcpre Hname.
    assert (name ∉ pre) as Hnew.
    { intros Hin. rewrite Forall_forall in Hpre, Hcpre.
      destruct Hname as [[Hname _]|Hname].
      - by apply (Hpre name Hin).
      - by apply (converts_not_throws args name e (Hcpre name Hin)). }
    destruct (new_Set_first_appearance pre name post Hnew) as [ext Hset].
    rewrite <- Hq in Hset. unfold Legacy.named. rewrite Hset, for_of_app.
    destruct (legacy_values Number_toString args (new_Set pre))
      as [values Hv]; [by apply Forall_new_Set|].
    destruct (legacy_for_of_supplied Number_toString args (new_Set pre)
                {| query := q; paramArray := []; idx := 1 |} values)
      as [text ->]; [by apply Forall_new_Set | done |].
    simpl. destruct Hname as [[Hname ->]|Hname].
    + unfold Legacy.loop_body. by rewrite Hname.
    + by rewrite (legacy_loop_body_throws _ _ _ _ e).
Qed.

Lemma legacy_named_results_witness :
  Legacy.named (λ _, lit "20")
    (lit "select * from entity limit $limit offset $offset")
    {[lit "limit" := JsNumber 20%float]}
  = Throw (MissingArgumentError (lit "offset")).
Proof.
  apply (proj2 (legacy_named_results (λ _, lit "20")
                  (lit "select * from entity limit $limit offset $offset")
                  {[lit "limit" := JsNumber 20%float]})
           [lit "limit"] (lit "offset") []).
  - vm_compute. reflexivity.
  - apply Forall_singleton. vm_compute. discriminate.
  - apply Forall_singleton. eexists. vm_compute. reflexivity.
  - left. split; vm_compute; reflexivity.
Defined.

(** X8: the two copies of [named] give the same result, or the same error,
    whenever no name of the template is the beginning of another name of
    the template and no argument of the template is a number. *)
Theorem legacy_named_agrees (Number_toString : float → jsstring)
    (q : jsstring) (args : NamedArgs) :
  (∀ a b, a ∈ matchAll q → b ∈ matchAll q →
     starts_with a b = true → b = a) →
  (∀ n, n ∈ matchAll q → is_number (get args n) = false) →
  Legacy.named Number_toString q args = named q args.
Proof.
  intros Hprefix Hnum. unfold Legacy.named, named.
  rewrite (legacy_for_of_agrees Number_toString q); try done.
  intros n. apply new_Set_elem_of_1.
Qed.

Lemma legacy_named_agrees_witness :
  Legacy.named (λ _, lit "10")
    (lit "select * from users where id = any($ids) and role = $role")
    (<[lit "ids" := JsArray [JsNumber 10%float]]>
       {[lit "role" := JsString (lit "user")]})
  = named (lit "select * from users where id = any($ids) and role = $role")
      (<[lit "ids" := JsArray [JsNumber 10%float]]>
         {[lit "role" := JsString (lit "user")]}).
Proof.
  apply legacy_named_agrees.
  - intros a b Ha Hb. apply list_elem_of_In in Ha, Hb.
    vm_compute in Ha, Hb.
    destruct Ha as [<-|[<-|[]]], Hb as [<-|[<-|[]]];
      vm_compute; intros; congruence.
  - intros n Hn. apply list_elem_of_In in Hn. vm_compute in Hn.
    destruct Hn as [<-|[<-|[]]]; vm_compute; reflexivity.
Defined.

(** ** Missing and inherited names *)

(** X18: [MissingArgumentError] as the code throws it.  At a placeholder
    of the template, every placeholder name before it being supplied and
    converted, whose name the argument object has bound to [undefined], or
    does not have while no object inherits it, [named] throws
    [MissingArgumentError] with this name.  A name is supplied exactly
    when the object has it bound to a value other than [undefined], or
    does not have it and inherits it. *)
Theorem named_missing_argument_at_first (args : NamedArgs) :
  (∀ q pre name post,
     q = pre ++ dollar :: name ++ post →
     is_identifier name = true → at_boundary post = true →
     (∀ n, occurs_in pre n → supplied args n ∧ converts args n) →
     args !! name = Some JsUndefined
     ∨ (args !! name = None ∧ ¬ inherited name) →
     named q args = Throw (MissingArgumentError name))
  ∧ (∀ name,
       supplied args name
       ↔ (∃ v, args !! name = Some v ∧ v ≠ JsUndefined)
         ∨ (args !! name = None ∧ inherited name)).
Proof.
  split.
  - intros q pre name post -> Hname Hpost Hpre Hmiss.
    apply (named_throws_first _ args (matchAll pre) name (matchAll post)).
    + by rewrite matchAll_app_dollar, matchAll_placeholder.
    + apply Forall_occurs_in. intros n Hn. by apply Hpre.
    + apply Forall_occurs_in. intros n Hn. by apply Hpre.
    + left. split; [|done]. by apply get_undefined.
  - intros name. unfold supplied. rewrite get_undefined.
    unfold inherited. destruct (args !! name) as [v|]; split.
    + intros H. left. exists v. split; [done|]. intros ->. apply H. by left.
    + intros [(v' & [= <-] & Hv)|[[=] _]] [[= ->]|[[=] _]]. done.
    + intros H. right. split; [done|].
      destruct (Object_prototype !! name) as [v|]; [by exists v|].
      exfalso. apply H. right. split; [done|]. by intros [v [=]].
    + intros [(v & [=] & _)|[_ H]] [[=]|[_ H']]. done.
Qed.

Lemma named_missing_argument_at_first_witness :
  named (lit "select * from entity limit $limit offset $offset")
    {[lit "limit" := JsNumber 20%float]}
  = Throw (MissingArgumentError (lit "offset")).
Proof.
  apply (proj1 (named_missing_argument_at_first
                  {[lit "limit" := JsNumber 20%float]})
           (lit "select * from entity limit $limit offset $offset")
           (lit "select * from entity limit $limit offset ")
           (lit "offset") []).
  - vm_compute. reflexivity.
  - vm_compute. reflexivity.
  - vm_compute. reflexivity.
  - intros n Hn%occurs_in_matchAll. apply list_elem_of_In in Hn.
    vm_compute in Hn. unfold supplied, converts.
    destruct Hn as [<-|[]].
    split; [vm_compute; discriminate | eexists; vm_compute; reflexivity].
  - right. split; [vm_compute; reflexivity|].
    intros [v Hv]. vm_compute in Hv. discriminate.
Defined.



(** ** More on the orchestrator *)

Section MoreOnTransaction.

Context (driver : Driver).

Implicit Types (callback : Work) (w : World).


Lemma pool_connect_ok w :
  connect_error driver = None →
  pool_connect driver w
  = ({| checked_out := S (checked_out w); sent := sent w;
        released := released w; unhandled := unhandled w |}, Normal tt).
Proof. unfold pool_connect. by intros ->. Qed.

Lemma begin_ok w result :
  connect_error driver = None →
  server driver (sent w) begin_stmt = Fulfilled result →
  client_query driver (lit "begin") [] (pool_connect driver w).1
  = (begun w, Normal result).
Proof.
  intros Hc Hb. rewrite pool_connect_ok by done.
  unfold client_query. simpl. fold begin_stmt. by rewrite Hb.
Qed.

Lemma transaction_after_begin callback w result :
  connect_error driver = None →
  server driver (sent w) begin_stmt = Fulfilled result →
  transaction driver callback w
  = match run driver callback (begun w) with
    | (w2, Normal _) =>
        let '(w3, _) := Transaction.commit driver w2 in
        ((client_release w3).1, Normal tt)
    | (w2, Throw err) =>
        let '(w3, _) := Transaction.rollback driver w2 in
        ((client_release w3).1, Throw err)
    end.
Proof.
  intros Hc Hb.
  apply (transaction_begun driver callback w (pool_connect driver w).1
           (begun w) result).
  - by rewrite pool_connect_ok.
  - by apply begin_ok.
Qed.

End MoreOnTransaction.

(** X9: the caller of [transaction] gets the error of [pool.connect] or
    of [begin] when one of them fails, and otherwise exactly the outcome
    of the callback: no error of [commit] or [rollback] ever reaches it.
    When [pool.connect] fails nothing is sent. *)
Theorem transaction_outcome (driver : Driver) (callback : Work) (w : World) :
  (∀ e, connect_error driver = Some e →
     transaction driver callback w = (w, Throw e))
  ∧ (∀ e, connect_error driver = None →
       server driver (sent w) begin_stmt = Rejected e →
       transaction driver callback w = (begun w, Throw e))
  ∧ (∀ result, connect_error driver = None →
       server driver (sent w) begin_stmt = Fulfilled result →
       (transaction driver callback w).2
       = (run driver callback (begun w)).2).
Proof.
  split; [|split].
  - intros e He.
    unfold transaction, mbind, Async_bind, bind, pool_connect. by rewrite He.
  - intros e Hc Hb.
    unfold transaction, mbind, Async_bind, bind.
    rewrite pool_connect_ok by done. unfold client_query. simpl.
    fold begin_stmt. by rewrite Hb.
  - intros result Hc Hb.
    rewrite (transaction_after_begin driver callback w result) by done.
    destruct (run driver callback (begun w)) as [w2 [[]|err]]; simpl.
    + by destruct (Transaction.commit driver w2).
    + by destruct (Transaction.rollback driver w2).
Qed.

Lemma transaction_outcome_witness :
  (transaction (rejecting (lit "rollback") 57) two_inserts_then_fail start).2
  = (run (rejecting (lit "rollback") 57) two_inserts_then_fail
       (begun start)).2.
Proof.
  apply (proj2 (proj2 (transaction_outcome (rejecting (lit "rollback") 57)
                         two_inserts_then_fail start))
           {| rowCount := 0; rows := [] |});
    vm_compute; reflexivity.
Defined.



Lemma transaction_released_once_witness :
  released (transaction (rejecting (lit "commit") 40001)
              two_inserts_then_fail start).1 = S (released start)
  ∧ checked_out (transaction (rejecting (lit "commit") 40001)
                   two_inserts_then_fail start).1 = S (checked_out start).
Proof.
  apply (transaction_released_once (rejecting (lit "commit") 40001)
           two_inserts_then_fail start
           {| checked_out := 1; sent := []; released := 0; unhandled := [] |}
           (begun start) {| rowCount := 0; rows := [] |});
    vm_compute; reflexivity.
Defined.

(** ** The handles *)

Section Handles.

Context (driver : Driver).

Lemma tx_handle_compiles_first : compiles_first named (tx_handle driver).
Proof.
  intros q args e w He. simpl. unfold Transaction.namedQuery. by rewrite He.
Qed.

Lemma database_handle_compiles_first :
  compiles_first named (DatabaseHandle.handle driver).
Proof.
  intros q args e w He. simpl. unfold DatabaseHandle.namedQuery.
  by rewrite He.
Qed.

Lemma legacy_tx_handle_compiles_first (Number_toString : float → jsstring) :
  compiles_first (Legacy.named Number_toString)
    (LegacyDb.tx_handle Number_toString driver).
Proof.
  intros q args e w He. simpl. unfold LegacyDb.Transaction_namedQuery.
  by rewrite He.
Qed.

Lemma legacy_handle_compiles_first (Number_toString : float → jsstring) :
  compiles_first (Legacy.named Number_toString)
    (LegacyDb.handle Number_toString driver).
Proof.
  intros q args e w He. simpl. unfold LegacyDb.Database_namedQuery.
  by rewrite He.
Qed.

End Handles.

(** X12: [namedQuery] on the database and on a transaction send the same
    statement, the compiled text with the compiled parameters, and end in
    the same way; when the template cannot be compiled both throw the
    compiler's error and neither checks out a connection nor sends
    anything. *)
Theorem namedQuery_handles_agree (driver : Driver) (q : jsstring)
    (args : NamedArgs) (w : World) :
  connect_error driver = None →
  (Handle.namedQuery (DatabaseHandle.handle driver) q args w).2
  = (Handle.namedQuery (tx_handle driver) q args w).2
  ∧ sent (Handle.namedQuery (DatabaseHandle.handle driver) q args w).1
    = sent (Handle.namedQuery (tx_handle driver) q args w).1
  ∧ (∀ r, named q args = Normal r →
       sent (Handle.namedQuery (tx_handle driver) q args w).1
       = sent w ++ [{| text := preparedQuery r; values := params r |}])
  ∧ (∀ e, named q args = Throw e →
       Handle.namedQuery (DatabaseHandle.handle driver) q args w
       = (w, Throw e)
       ∧ Handle.namedQuery (tx_handle driver) q args w = (w, Throw e)).
Proof.
  intros Hc. simpl.
  unfold DatabaseHandle.namedQuery, Transaction.namedQuery.
  destruct (named q args) as [r|e].
  - unfold pool_query, mbind, Async_bind, bind, try_catch_finally.
    rewrite pool_connect_ok by done. unfold client_query. simpl.
    destruct (server driver (sent w) _); simpl;
      (split; [done|]); (split; [done|]); split; [|done| |done];
      by intros ? [= <-].
  - split; [done|]. split; [done|]. split; [done|]. by intros ? [= <-].
Qed.

Lemma namedQuery_handles_agree_witness :
  (Handle.namedQuery (DatabaseHandle.handle accepting)
     (lit "select * from t where id = $id") {[lit "id" := JsNull]} start).2
  = (Handle.namedQuery (tx_handle accepting)
       (lit "select * from t where id = $id") {[lit "id" := JsNull]} start).2.
Proof.
  apply (namedQuery_handles_agree accepting
           (lit "select * from t where id = $id") {[lit "id" := JsNull]}
           start).
  reflexivity.
Defined.

(** ** The repositories *)

Section Repositories.

Context (Number_toString : float → jsstring).

Implicit Types (user : UserRepo.UserEntity) (id : jsstring).

Lemma createUserQuery_throws user :
  Legacy.named Number_toString UserRepo.createUserQuery
    (UserRepo.to_object user)
  = Throw (MissingArgumentError (lit "is_active")).
Proof. vm_compute. reflexivity. Qed.

Lemma updateUserQuery_throws user :
  Legacy.named Number_toString UserRepo.updateUserQuery
    (UserRepo.to_object user)
  = Throw (MissingArgumentError (lit "is_active")).
Proof. vm_compute. reflexivity. Qed.

Lemma findByIdQuery_throws id :
  Legacy.named Number_toString UserRepo.findByIdQuery
    {[lit "id" := JsString id]}
  = Throw (MissingArgumentError (lit "user_id")).
Proof. vm_compute. reflexivity. Qed.

Lemma deleteUserQuery_throws id :
  Legacy.named Number_toString UserRepo.deleteUserQuery
    {[lit "id" := JsString id]}
  = Throw (MissingArgumentError (lit "user_id")).
Proof. vm_compute. reflexivity. Qed.

End Repositories.

(** X13: [UserRepo.findById] and [UserRepo.deleteUser] fail for every id
    with [MissingArgumentError] for [user_id], before anything is sent:
    their templates name [$user_id] and the object they pass has the key
    [id]. *)
Theorem user_by_id_never_reaches_database
    (Number_toString : float → jsstring)
    (parse : option (list JsValue) → Completion UserRepo.UserEntity)
    (db : DbHandle) (id : jsstring) (w : World) :
  compiles_first (Legacy.named Number_toString) db →
  UserRepo.findById parse db id w
  = (w, Throw (MissingArgumentError (lit "user_id")))
  ∧ UserRepo.deleteUser db id w
    = (w, Throw (MissingArgumentError (lit "user_id"))).
Proof.
  intros Hdb. unfold UserRepo.findById, UserRepo.deleteUser.
  unfold mbind, Async_bind, bind.
  rewrite (Hdb _ _ _ w (findByIdQuery_throws Number_toString id)).
  by rewrite (Hdb _ _ _ w (deleteUserQuery_throws Number_toString id)).
Qed.

Lemma user_by_id_never_reaches_database_witness :
  UserRepo.findById (λ _, Throw (Error (lit "invalid")))
    (LegacyDb.tx_handle (λ _, lit "0") accepting) (lit "42") start
  = (start, Throw (MissingArgumentError (lit "user_id")))
  ∧ UserRepo.deleteUser (LegacyDb.tx_handle (λ _, lit "0") accepting)
      (lit "42") start
    = (start, Throw (MissingArgumentError (lit "user_id"))).
Proof.
  apply (user_by_id_never_reaches_database (λ _, lit "0")).
  apply legacy_tx_handle_compiles_first.
Defined.

(** X14: [UserRepo.createUser] and [UserRepo.updateUser] fail for every
    user with [MissingArgumentError] for [is_active], before anything is
    sent: their templates name [$is_active] and a user has the key
    [isActive]; the error goes through [handleConstraintViolations]
    unchanged. *)
Theorem user_write_never_reaches_database
    (Number_toString : float → jsstring) (constraint : N → option jsstring)
    (db : DbHandle) (user : UserRepo.UserEntity) (w : World) :
  compiles_first (Legacy.named Number_toString) db →
  UserRepo.createUser constraint db user w
  = (w, Throw (MissingArgumentError (lit "is_active")))
  ∧ UserRepo.updateUser constraint db user w
    = (w, Throw (MissingArgumentError (lit "is_active"))).
Proof.
  intros Hdb. unfold UserRepo.createUser, UserRepo.updateUser, try_catch.
  unfold mbind, Async_bind, bind.
  rewrite (Hdb _ _ _ w (createUserQuery_throws Number_toString user)).
  by rewrite (Hdb _ _ _ w (updateUserQuery_throws Number_toString user)).
Qed.

Lemma user_write_never_reaches_database_witness :
  UserRepo.createUser (λ _, Some (lit "email_unique"))
    (LegacyDb.tx_handle (λ _, lit "0") accepting)
    {| UserRepo.user_id := lit "7"; UserRepo.email := lit "admin-two@site.com";
       UserRepo.password := lit "my-strong-hashed-password";
       UserRepo.role := UserRepo.ADMIN; UserRepo.isActive := true;
       UserRepo.created_at := lit "2025-01-01T00:00:00.000Z";
       UserRepo.deleted_at := None |} start
  = (start, Throw (MissingArgumentError (lit "is_active")))
  ∧ UserRepo.updateUser (λ _, Some (lit "email_unique"))
      (LegacyDb.tx_handle (λ _, lit "0") accepting)
      {| UserRepo.user_id := lit "7";
         UserRepo.email := lit "admin-two@site.com";
         UserRepo.password := lit "my-strong-hashed-password";
         UserRepo.role := UserRepo.ADMIN; UserRepo.isActive := true;
         UserRepo.created_at := lit "2025-01-01T00:00:00.000Z";
         UserRepo.deleted_at := None |} start
    = (start, Throw (MissingArgumentError (lit "is_active"))).
Proof.
  apply (user_write_never_reaches_database (λ _, lit "0")).
  apply legacy_tx_handle_compiles_first.
Defined.

(** X15: the transaction of the earlier [main], which creates the users
    one after the other, sends [begin] and then [rollback] and nothing
    else, releases the connection once and fails with
    [MissingArgumentError] for [is_active], whenever there is a user to
    create and the connection and [begin] succeed. *)
Theorem main_transaction_rolls_back (Number_toString : float → jsstring)
    (constraint : N → option jsstring) (driver : Driver)
    (user : UserRepo.UserEntity) (users : list UserRepo.UserEntity)
    (w : World) (result : QueryResult) :
  connect_error driver = None →
  server driver (sent w) begin_stmt = Fulfilled result →
  LegacyDb.transaction Number_toString driver
    (λ tx, UserRepo.create_all constraint tx (user :: users)) w
  = ({| checked_out := S (checked_out w);
        sent := sent w ++ [begin_stmt; rollback_stmt];
        released := S (released w);
        unhandled :=
          unhandled w
            ++ match server driver (sent w ++ [begin_stmt]) rollback_stmt with
               | Fulfilled _ => []
               | Rejected e => [e]
               end |},
     Throw (MissingArgumentError (lit "is_active"))).
Proof.
  intros Hc Hb.
  unfold LegacyDb.transaction, mbind, Async_bind, bind, try_catch_finally.
  rewrite pool_connect_ok by done. unfold client_query at 1. simpl sent.
  fold begin_stmt. rewrite Hb. cbn [UserRepo.create_all].
  unfold UserRepo.createUser, try_catch, mbind, Async_bind, bind.
  rewrite (legacy_tx_handle_compiles_first driver Number_toString _ _ _ _
             (createUserQuery_throws Number_toString user)).
  cbn [UserRepo.handleConstraintViolations throw].
  unfold Transaction.rollback, not_awaited, client_query. simpl sent.
  fold rollback_stmt.
  destruct (server driver (sent w ++ [begin_stmt]) rollback_stmt); simpl;
    rewrite <- (app_assoc (sent w)); rewrite ?app_nil_r; reflexivity.
Qed.

Lemma main_transaction_rolls_back_witness :
  LegacyDb.transaction (λ _, lit "0") accepting
    (λ tx, UserRepo.create_all (λ _, None) tx
             [{| UserRepo.user_id := lit "7";
                 UserRepo.email := lit "admin-two@site.com";
                 UserRepo.password := lit "my-strong-hashed-password";
                 UserRepo.role := UserRepo.ADMIN; UserRepo.isActive := true;
                 UserRepo.created_at := lit "2025-01-01T00:00:00.000Z";
                 UserRepo.deleted_at := None |}]) start
  = ({| checked_out := 1; sent := [] ++ [begin_stmt; rollback_stmt];
        released := 1;
        unhandled :=
          [] ++ match server accepting ([] ++ [begin_stmt]) rollback_stmt with
                | Fulfilled _ => []
                | Rejected e => [e]
                end |},
     Throw (MissingArgumentError (lit "is_active"))).
Proof.
  apply (main_transaction_rolls_back (λ _, lit "0") (λ _, None) accepting _ []
           start {| rowCount := 0; rows := [] |}); reflexivity.
Defined.

(** X16: [PlayerRepo.findPlayers] sends one statement, the trimmed
    template with [$1] for [$ids] and the array of the ids as its only
    parameter, whatever the ids; it fails only with the error of the
    server or of the schema. *)
Theorem findPlayers_sends_ids_array
    (parseAll : list (list JsValue) → Completion (list PlayerRepo.Player))
    (driver : Driver) (ids : list float) (w : World) :
  let stmt :=
    {| text := lit "select p.* from players p" ++ newline
                 ++ lit "        where p.player_id = any($1)";
       values := [JsArray (JsNumber <$> ids)] |} in
  PlayerRepo.findPlayers parseAll (tx_handle driver) ids w
  = ({| checked_out := checked_out w; sent := sent w ++ [stmt];
        released := released w; unhandled := unhandled w |},
     match server driver (sent w) stmt with
     | Fulfilled result =>
         match parseAll (rows result) with
         | Normal players => Normal players
         | Throw e => Throw e
         end
     | Rejected e => Throw e
     end).
Proof.
  intros stmt.
  assert (named PlayerRepo.findPlayersQuery
            {[lit "ids" := JsArray (JsNumber <$> ids)]}
          = Normal {| preparedQuery := text stmt; params := values stmt |})
    as Hq by (vm_compute; reflexivity).
  clearbody stmt.
  unfold PlayerRepo.findPlayers, mbind, Async_bind, bind.
  cbn [Handle.namedQuery tx_handle]. unfold Transaction.namedQuery.
  rewrite Hq. unfold client_query. cbn [preparedQuery params].
  destruct stmt as [t v]. cbn [text values].
  destruct (server driver (sent w) _) as [result|e]; [|done].
  by destruct (parseAll (rows result)).
Qed.

(** X17: [Database.ping] answers [true] exactly when the server answers
    [select 1] with one row; it never answers [false] for a connection or
    a statement that fails, but throws the error. *)
Theorem ping_outcome (driver : Driver) (w : World) :
  (∀ e, connect_error driver = Some e →
     DatabaseHandle.ping driver w = (w, Throw e))
  ∧ (connect_error driver = None →
     (∀ e, server driver (sent w) {| text := lit "select 1"; values := [] |}
           = Rejected e →
        (DatabaseHandle.ping driver w).2 = Throw e)
     ∧ (∀ result,
          server driver (sent w) {| text := lit "select 1"; values := [] |}
          = Fulfilled result →
          (DatabaseHandle.ping driver w).2
          = Normal (bool_decide (rowCount result = 1%nat)))).
Proof.
  split.
  - intros e He.
    unfold DatabaseHandle.ping, pool_query, mbind, Async_bind, bind,
      pool_connect.
    by rewrite He.
  - intros Hc.
    unfold DatabaseHandle.ping, pool_query, mbind, Async_bind, bind,
      try_catch_finally.
    rewrite pool_connect_ok by done. unfold client_query.
    cbn [sent]. split.
    + intros e ->. reflexivity.
    + intros result ->. reflexivity.
Qed.

Lemma ping_outcome_witness :
  (DatabaseHandle.ping (rejecting (lit "select 1") 57) start).2
  = Throw (DatabaseError 57).
Proof.
  apply (proj1 (proj2 (ping_outcome (rejecting (lit "select 1") 57) start)
                  eq_refl)).
  vm_compute. reflexivity.
Defined.
